(** * Clementine: the playback core of [src/core/player.cpp]

    A shallow embedding of [Player] and of the collaborators it drives
    (the audio engine, the active playlist, playlist items, the scrobbler),
    followed by the properties of the player that the specification states.

    The player is a record of its members; a member function takes the
    player and returns it changed.  What the player asks of its
    collaborators is kept in the order it asks: the requests to the engine,
    the loads asked of items, the signals emitted.  The constructor, [Init],
    [PlayPause] and [Play], which need the settings, the build and the
    playlist manager, come after the other member functions. *)

From Stdlib Require Import ZArith List String Ascii Bool Lia.
Import ListNotations.
Open Scope Z_scope.

(** ** QString

    The [QString] operations that [player.cpp] calls.  A string is a
    sequence of code units; positions are [int]s, [-1] meaning "not found". *)
Module QStr.

Definition isEmpty (s : string) : bool :=
  match s with EmptyString => true | String _ _ => false end.

Fixpoint indexOf_from (s : string) (c : ascii) (k : Z) : Z :=
  match s with
  | EmptyString => -1
  | String a s' => if Ascii.eqb a c then k else indexOf_from s' c (k + 1)
  end.

(** [QString::indexOf(QChar)]: position of the first occurrence, or -1. *)
Definition indexOf (s : string) (c : ascii) : Z := indexOf_from s c 0.

Fixpoint drop (n : nat) (s : string) : string :=
  match n, s with
  | O, _ => s
  | S _, EmptyString => EmptyString
  | S n', String _ s' => drop n' s'
  end.

Fixpoint take (n : nat) (s : string) : string :=
  match n, s with
  | O, _ => EmptyString
  | S _, EmptyString => EmptyString
  | S n', String a s' => String a (take n' s')
  end.

(** [QString::mid(pos)] with the default length: everything from [pos]
    on; the empty string when [pos] is past the end. *)
Definition mid (s : string) (pos : Z) : string :=
  if pos <? 0 then s else drop (Z.to_nat pos) s.

(** [QString::left(n)]: the first [n] code units; the whole string when
    [n] is negative or not smaller than the size. *)
Definition left (s : string) (n : Z) : string :=
  if (n <? 0) || (n >=? Z.of_nat (String.length s)) then s
  else take (Z.to_nat n) s.

(** [QChar::isSpace] on the Latin-1 range: the characters 9 to 13,
    the space and the no-break space. *)
Definition isSpace (c : ascii) : bool :=
  let n := Z.of_nat (nat_of_ascii c) in
  ((9 <=? n) && (n <=? 13)) || (n =? 32) || (n =? 160).

Fixpoint skip_spaces (l : list ascii) : list ascii :=
  match l with
  | [] => []
  | c :: l' => if isSpace c then skip_spaces l' else l
  end.

(** [QString::trimmed]: whitespace removed from both ends. *)
Definition trimmed (s : string) : string :=
  string_of_list_ascii
    (rev (skip_spaces (rev (skip_spaces (list_ascii_of_string s))))).

(** [QString::contains(QString)]: [sub] occurs somewhere in [s]. *)
Fixpoint contains (s sub : string) : bool :=
  match s with
  | EmptyString => String.prefix sub EmptyString
  | String _ s' => String.prefix sub s || contains s' sub
  end.

End QStr.

(** ** QUrl

    A locator, with the two components [player.cpp] inspects.  [QUrl()] is
    the empty locator, and is what an unset [loading_async_] holds. *)
Record QUrl : Type := mkQUrl {
  scheme : string;
  host : string;
  path : string;
  fragment : string
}.

Definition QUrl_empty : QUrl :=
  mkQUrl EmptyString EmptyString EmptyString EmptyString.

Definition QUrl_eqb (a b : QUrl) : bool :=
  String.eqb (scheme a) (scheme b) && String.eqb (host a) (host b) &&
  String.eqb (path a) (path b) && String.eqb (fragment a) (fragment b).

(** ** Songs and the engine's metadata bundle *)
Record Song : Type := mkSong {
  title : string;
  artist : string;
  album : string
}.

Module Engine.

Inductive State : Type := Empty | Idle | Playing | Paused.

Inductive TrackChangeType : Type := First | Auto | Manual.

Record SimpleMetaBundle : Type := mkBundle {
  bundle_title : string;
  bundle_artist : string;
  bundle_album : string
}.

(** What the player asks of the engine, in the order it asks. *)
Inductive Call : Type :=
| CPlay (url : QUrl) (change : TrackChangeType)
| CStop
| CPause
| CUnpause
| CSeek (msec : Z)
| CSetVolume (v : Z)
| CStartPreloading (url : QUrl).

(** Modelled from the spec: the engine contract ([enginebase.h] is not
    among the sources).  [volume()] reads back what [SetVolume] stored;
    [state()], [length()] and the crossfade setting are the engine's own
    and no call of the player changes them synchronously; every request
    is appended to [calls]. *)
Record Base : Type := mkBase {
  volume : Z;
  state : State;
  length : Z;
  is_autocrossfade_enabled : bool;
  calls : list Call
}.

Definition request (c : Call) (e : Base) : Base :=
  mkBase (volume e) (state e) (length e) (is_autocrossfade_enabled e)
         (calls e ++ [c]).

Definition Play (url : QUrl) (change : TrackChangeType) : Base -> Base :=
  request (CPlay url change).
Definition Stop : Base -> Base := request CStop.
Definition Pause : Base -> Base := request CPause.
Definition Unpause : Base -> Base := request CUnpause.
Definition Seek (msec : Z) : Base -> Base := request (CSeek msec).
Definition StartPreloading (url : QUrl) : Base -> Base :=
  request (CStartPreloading url).
Definition SetVolume (v : Z) (e : Base) : Base :=
  request (CSetVolume v)
    (mkBase v (state e) (length e) (is_autocrossfade_enabled e) (calls e)).

Definition is_play (c : Call) : bool :=
  match c with CPlay _ _ => true | _ => false end.
Definition is_stop (c : Call) : bool :=
  match c with CStop => true | _ => false end.

End Engine.

(** Modelled from the spec: [Song::MergeFromSimpleMetaBundle] ([song.cpp] is
    not among the sources) is the non-destructive merge: a field of the
    song is overwritten only when the bundle has that field. *)
Definition MergeFromSimpleMetaBundle (song : Song) (b : Engine.SimpleMetaBundle)
  : Song :=
  mkSong
    (if QStr.isEmpty (Engine.bundle_title b) then title song
     else Engine.bundle_title b)
    (if QStr.isEmpty (Engine.bundle_artist b) then artist song
     else Engine.bundle_artist b)
    (if QStr.isEmpty (Engine.bundle_album b) then album song
     else Engine.bundle_album b).

(** ** Playlist items *)
Module PlaylistItem.

(** The three outcomes of a special load. *)
Inductive SpecialLoadResult : Type :=
| NoMoreTracks
| TrackAvailable (original_url_ media_url_ : QUrl)
| WillLoadAsynchronously (original_url_ : QUrl).

(** Modelled from the spec: the capability bits of an item
    ([playlistitem.h] is not among the sources); three independent bits. *)
Definition SpecialPlayBehaviour : Z := 1.
Definition ContainsMultipleTracks : Z := 2.
Definition PauseDisabled : Z := 4.

(** An item is an object behind an interface: its locator, its options
    and its metadata, and the two virtual load operations.  An item may
    answer differently from one load to the next, so a load operation is
    given the number of loads requested so far. *)
Record t : Type := mk {
  Url : QUrl;
  options : Z;
  Metadata : Song;
  StartLoading : nat -> SpecialLoadResult;
  LoadNext : nat -> SpecialLoadResult
}.

(** [item->options() & flag] as a condition. *)
Definition has (item : t) (flag : Z) : bool :=
  negb (Z.land (options item) flag =? 0).

End PlaylistItem.

Definition PlaylistItemPtr : Type := option PlaylistItem.t.

(** ** The active playlist

    Modelled from the spec: the cursor contract ([playlist.h] is not among
    the sources).  [set_current_index] stores the index (and is recorded in
    [index_history], newest first); [current_item] is the item at the
    current index, null when the index is -1 or names no row; the
    stop-after marker is a row, pending when it is the current one;
    [SetStreamMetadata] files the metadata under the locator, newest
    first. *)
Record Playlist : Type := mkPlaylist {
  items : list PlaylistItem.t;
  current_index : Z;
  index_history : list Z;
  last_played_index : Z;
  stop_after : Z;
  scrobbled : bool;
  stream_metadata : list (QUrl * Song)
}.

Definition rowCount (pl : Playlist) : Z := Z.of_nat (List.length (items pl)).

(** The item in row [i]; a null handle where there is no such row. *)
Definition item_at (pl : Playlist) (i : Z) : PlaylistItemPtr :=
  if i <? 0 then None else nth_error (items pl) (Z.to_nat i).

Definition current_item (pl : Playlist) : PlaylistItemPtr :=
  if current_index pl =? -1 then None else item_at pl (current_index pl).

(** Modelled from the spec: [itemAt(i)] of the cursor contract, as the
    indexing of the rows that [GetItemAt] guards.  There is an item to hand
    out for the rows [0 .. rowCount - 1] only; any other [i] indexes out of
    bounds, which is not the same as handing out a null handle. *)
Inductive indexing : Type :=
| Indexed (item : PlaylistItemPtr)
| OutOfBounds.

Definition item_at_row (pl : Playlist) (i : Z) : indexing :=
  if (0 <=? i) && (i <? rowCount pl) then Indexed (item_at pl i)
  else OutOfBounds.

Definition set_current_index (i : Z) (pl : Playlist) : Playlist :=
  mkPlaylist (items pl) i (i :: index_history pl) (last_played_index pl)
             (stop_after pl) (scrobbled pl) (stream_metadata pl).

Definition stop_after_current (pl : Playlist) : bool :=
  negb (stop_after pl =? -1) && (stop_after pl =? current_index pl).

Definition StopAfter (row : Z) (pl : Playlist) : Playlist :=
  mkPlaylist (items pl) (current_index pl) (index_history pl)
             (last_played_index pl) row (scrobbled pl) (stream_metadata pl).

Definition set_scrobbled (b : bool) (pl : Playlist) : Playlist :=
  mkPlaylist (items pl) (current_index pl) (index_history pl)
             (last_played_index pl) (stop_after pl) b (stream_metadata pl).

Definition SetStreamMetadata (url : QUrl) (song : Song) (pl : Playlist)
  : Playlist :=
  mkPlaylist (items pl) (current_index pl) (index_history pl)
             (last_played_index pl) (stop_after pl) (scrobbled pl)
             ((url, song) :: stream_metadata pl).

(** Navigation depends on the shuffle and repeat policy of the playlist,
    which the player does not see: it is an interface. *)
Class Navigation : Type := {
  next_index : Playlist -> Z;
  previous_index : Playlist -> Z
}.

(** ** The scrobbler *)
Record LastFMService : Type := mkLastFM {
  IsScrobblingEnabled : bool;
  now_playing : list Song
}.

Definition NowPlaying (song : Song) (l : LastFMService) : LastFMService :=
  mkLastFM (IsScrobblingEnabled l) (now_playing l ++ [song]).

(** ** The player *)

(** Signals of [Player], in the order they are emitted. *)
Inductive Signal : Type :=
| SigPlaying
| SigPaused
| SigStopped
| SigPlaylistFinished
| SigTrackSkipped (old_track : PlaylistItemPtr)
| SigVolumeChanged (v : Z)
| SigForceShowOSD (song : Song).

(** A load operation asked of an item. *)
Inductive LoadRequest : Type :=
| ReqStartLoading (url : QUrl)
| ReqLoadNext (url : QUrl).

Record Player : Type := mkPlayer {
  active : Playlist;                       (* playlists_->active() *)
  lastfm_ : LastFMService;
  engine_ : Engine.Base;
  current_item_ : PlaylistItemPtr;
  loading_async_ : QUrl;
  stream_change_type_ : Engine.TrackChangeType;
  volume_before_mute_ : Z;
  settings_volume : Z;                     (* settings_, key "volume" *)
  emitted : list Signal;
  loads : list LoadRequest
}.

Definition on_playlist (f : Playlist -> Playlist) (p : Player) : Player :=
  mkPlayer (f (active p)) (lastfm_ p) (engine_ p) (current_item_ p)
           (loading_async_ p) (stream_change_type_ p) (volume_before_mute_ p)
           (settings_volume p) (emitted p) (loads p).

Definition on_lastfm (f : LastFMService -> LastFMService) (p : Player)
  : Player :=
  mkPlayer (active p) (f (lastfm_ p)) (engine_ p) (current_item_ p)
           (loading_async_ p) (stream_change_type_ p) (volume_before_mute_ p)
           (settings_volume p) (emitted p) (loads p).

Definition on_engine (f : Engine.Base -> Engine.Base) (p : Player) : Player :=
  mkPlayer (active p) (lastfm_ p) (f (engine_ p)) (current_item_ p)
           (loading_async_ p) (stream_change_type_ p) (volume_before_mute_ p)
           (settings_volume p) (emitted p) (loads p).

Definition set_current_item_ (i : PlaylistItemPtr) (p : Player) : Player :=
  mkPlayer (active p) (lastfm_ p) (engine_ p) i
           (loading_async_ p) (stream_change_type_ p) (volume_before_mute_ p)
           (settings_volume p) (emitted p) (loads p).

Definition set_loading_async_ (u : QUrl) (p : Player) : Player :=
  mkPlayer (active p) (lastfm_ p) (engine_ p) (current_item_ p)
           u (stream_change_type_ p) (volume_before_mute_ p)
           (settings_volume p) (emitted p) (loads p).

Definition set_stream_change_type_ (c : Engine.TrackChangeType) (p : Player)
  : Player :=
  mkPlayer (active p) (lastfm_ p) (engine_ p) (current_item_ p)
           (loading_async_ p) c (volume_before_mute_ p)
           (settings_volume p) (emitted p) (loads p).

Definition set_volume_before_mute_ (v : Z) (p : Player) : Player :=
  mkPlayer (active p) (lastfm_ p) (engine_ p) (current_item_ p)
           (loading_async_ p) (stream_change_type_ p) v
           (settings_volume p) (emitted p) (loads p).

Definition set_settings_volume (v : Z) (p : Player) : Player :=
  mkPlayer (active p) (lastfm_ p) (engine_ p) (current_item_ p)
           (loading_async_ p) (stream_change_type_ p) (volume_before_mute_ p)
           v (emitted p) (loads p).

Definition emit (s : Signal) (p : Player) : Player :=
  mkPlayer (active p) (lastfm_ p) (engine_ p) (current_item_ p)
           (loading_async_ p) (stream_change_type_ p) (volume_before_mute_ p)
           (settings_volume p) (emitted p ++ [s]) (loads p).

(** [item->StartLoading()] and [item->LoadNext()]: the request is recorded
    and the item answers. *)
Definition call_StartLoading (item : PlaylistItem.t) (p : Player)
  : PlaylistItem.SpecialLoadResult * Player :=
  (PlaylistItem.StartLoading item (List.length (loads p)),
   mkPlayer (active p) (lastfm_ p) (engine_ p) (current_item_ p)
            (loading_async_ p) (stream_change_type_ p) (volume_before_mute_ p)
            (settings_volume p) (emitted p)
            (loads p ++ [ReqStartLoading (PlaylistItem.Url item)])).

Definition call_LoadNext (item : PlaylistItem.t) (p : Player)
  : PlaylistItem.SpecialLoadResult * Player :=
  (PlaylistItem.LoadNext item (List.length (loads p)),
   mkPlayer (active p) (lastfm_ p) (engine_ p) (current_item_ p)
            (loading_async_ p) (stream_change_type_ p) (volume_before_mute_ p)
            (settings_volume p) (emitted p)
            (loads p ++ [ReqLoadNext (PlaylistItem.Url item)])).

(** How a member function ends: it returns with the new state of the
    player, it dereferences a null item pointer, or the nesting of [PlayAt]
    inside [PlayAt] went deeper than the fuel given. *)
Inductive outcome : Type :=
| Ok (p : Player)
| NullDeref
| OutOfFuel.

(** [int] is 32 bits wide: the value of an arithmetic result as an [int]. *)
Definition to_int (z : Z) : Z := (z + 2 ^ 31) mod 2 ^ 32 - 2 ^ 31.

(** [qBound(min, val, max)] is [qMax(min, qMin(max, val))]. *)
Definition qBound (min val max : Z) : Z := Z.max min (Z.min max val).

(** ** The member functions of [Player] *)
Section PlayerFunctions.

Context {nav : Navigation}.

Definition Stop (st : Player) : Player :=
  let st := on_engine Engine.Stop st in
  let st := on_playlist (set_current_index (-1)) st in
  set_current_item_ None st.

(** [NextItem], with the [PlayAt] it ends in left open. *)
Definition NextItem_with
    (play_at : Z -> Engine.TrackChangeType -> bool -> Player -> outcome)
    (change : Engine.TrackChangeType) (st : Player) : outcome :=
  let i := next_index (active st) in
  if i =? -1 then
    let st := on_playlist (set_current_index i) st in
    let st := emit SigPlaylistFinished st in
    Ok (Stop st)
  else play_at i change false st.

(** [HandleSpecialLoad], with the [PlayAt] that [NextItem] ends in left
    open. *)
Definition HandleSpecialLoad_with
    (play_at : Z -> Engine.TrackChangeType -> bool -> Player -> outcome)
    (result : PlaylistItem.SpecialLoadResult) (st : Player) : outcome :=
  match result with
  | PlaylistItem.NoMoreTracks =>
      let st := set_loading_async_ QUrl_empty st in
      NextItem_with play_at Engine.Auto st
  | PlaylistItem.TrackAvailable original_url_ media_url_ =>
      (* Might've been an async load, so check we're still on the same item *)
      let current_index := current_index (active st) in
      if current_index =? -1 then Ok st
      else
        match item_at (active st) current_index with
        | None => Ok st
        | Some item =>
            if negb (QUrl_eqb (PlaylistItem.Url item) original_url_) then Ok st
            else
              let st :=
                on_engine (Engine.Play media_url_ (stream_change_type_ st)) st in
              let st := set_current_item_ (Some item) st in
              Ok (set_loading_async_ QUrl_empty st)
        end
  | PlaylistItem.WillLoadAsynchronously original_url_ =>
      (* We'll get called again later with either NoMoreTracks or
         TrackAvailable *)
      Ok (set_loading_async_ original_url_ st)
  end.

(** [PlayAt], with the [PlayAt] it reaches through [HandleSpecialLoad]
    and [NextItem] left open. *)
Definition PlayAt_with
    (nested : Z -> Engine.TrackChangeType -> bool -> Player -> outcome)
    (index : Z) (change : Engine.TrackChangeType) (reshuffle : bool)
    (st : Player) : outcome :=
  let st := if reshuffle then on_playlist (set_current_index (-1)) st
            else st in
  let st := on_playlist (set_current_index index) st in
  let st := set_current_item_ (current_item (active st)) st in
  match current_item_ st with
  | None => NullDeref
  | Some current =>
      if PlaylistItem.has current PlaylistItem.SpecialPlayBehaviour then
        (* It's already loading *)
        if QUrl_eqb (PlaylistItem.Url current) (loading_async_ st) then Ok st
        else
          let st := set_stream_change_type_ change st in
          let '(result, st) := call_StartLoading current st in
          HandleSpecialLoad_with nested result st
      else
        let st := set_loading_async_ QUrl_empty st in
        let st := on_engine (Engine.Play (PlaylistItem.Url current) change) st in
        if IsScrobblingEnabled (lastfm_ st) then
          Ok (on_lastfm (NowPlaying (PlaylistItem.Metadata current)) st)
        else Ok st
  end.

(** [PlayAt] reaches itself when an item has no more tracks; [fuel]
    bounds that nesting. *)
Fixpoint PlayAt (fuel : nat) {struct fuel}
  : Z -> Engine.TrackChangeType -> bool -> Player -> outcome :=
  PlayAt_with
    match fuel with
    | O => fun _ _ _ _ => OutOfFuel
    | S fuel' => PlayAt fuel'
    end.

Definition NextItem (fuel : nat) : Engine.TrackChangeType -> Player -> outcome :=
  NextItem_with (PlayAt fuel).

Definition HandleSpecialLoad (fuel : nat)
  : PlaylistItem.SpecialLoadResult -> Player -> outcome :=
  HandleSpecialLoad_with (PlayAt fuel).

Definition NextInternal (fuel : nat) (change : Engine.TrackChangeType)
    (st : Player) : outcome :=
  let st := match change with
            | Engine.Manual => emit (SigTrackSkipped (current_item_ st)) st
            | _ => st
            end in
  if stop_after_current (active st) then
    let st := on_playlist (StopAfter (-1)) st in
    Ok (Stop st)
  else
    match current_item (active st) with
    | Some current =>
        if PlaylistItem.has current PlaylistItem.ContainsMultipleTracks then
          (* The next track is already being loaded *)
          if QUrl_eqb (PlaylistItem.Url current) (loading_async_ st) then Ok st
          else
            let st := set_stream_change_type_ change st in
            let '(result, st) := call_LoadNext current st in
            HandleSpecialLoad fuel result st
        else NextItem fuel change st
    | None => NextItem fuel change st
    end.

Definition Next (fuel : nat) : Player -> outcome :=
  NextInternal fuel Engine.Manual.

Definition TrackEnded (fuel : nat) (st : Player) : outcome :=
  if stop_after_current (active st) then
    let st := on_playlist (StopAfter (-1)) st in
    Ok (Stop st)
  else NextInternal fuel Engine.Auto st.

Definition Previous (fuel : nat) (st : Player) : outcome :=
  let i := previous_index (active st) in
  let st := on_playlist (set_current_index i) st in
  if i =? -1 then Ok (Stop st)
  else PlayAt fuel i Engine.Manual false st.

Definition EngineStateChanged (state : Engine.State) (st : Player) : Player :=
  match state with
  | Engine.Paused => emit SigPaused st
  | Engine.Playing => emit SigPlaying st
  | Engine.Empty | Engine.Idle => emit SigStopped st
  end.

Definition SetVolume (value : Z) (st : Player) : Player :=
  let old_volume := Engine.volume (engine_ st) in
  let volume := qBound 0 value 100 in
  let st := set_settings_volume volume st in
  let st := on_engine (Engine.SetVolume volume) st in
  if negb (volume =? old_volume) then emit (SigVolumeChanged volume) st
  else st.

Definition GetVolume (st : Player) : Z := Engine.volume (engine_ st).

Definition GetState (st : Player) : Engine.State := Engine.state (engine_ st).

Definition Seek (seconds : Z) (st : Player) : Player :=
  let msec :=
    qBound 0 (to_int (seconds * 1000)) (to_int (Engine.length (engine_ st))) in
  let st := on_engine (Engine.Seek msec) st in
  (* If we seek the track we don't want to submit it to last.fm *)
  on_playlist (set_scrobbled true) st.

(** The providers whose artist and title come the other way round. *)
Definition swaps_artist_and_title (url : QUrl) : bool :=
  QStr.contains (host url) "somafm.com" || String.eqb (fragment url) "icecast".

Definition EngineMetadataReceived (bundle : Engine.SimpleMetaBundle)
    (st : Player) : Player :=
  match current_item (active st) with
  | None => st
  | Some item =>
      let bundle_copy := bundle in
      (* Maybe the metadata is from icycast and has "Artist - Title" shoved
         together in the title field. *)
      let dash_pos := QStr.indexOf (Engine.bundle_title bundle_copy) "-" in
      let bundle_copy :=
        if negb (dash_pos =? -1)
           && QStr.isEmpty (Engine.bundle_artist bundle_copy)
        then
          Engine.mkBundle
            (QStr.trimmed (QStr.left (Engine.bundle_title bundle_copy) dash_pos))
            (QStr.trimmed
               (QStr.mid (Engine.bundle_title bundle_copy) (dash_pos + 1)))
            (Engine.bundle_album bundle_copy)
        else bundle_copy in
      (* Hack as SomaFM's and icecast's artist/title descriptions are
         backwards. *)
      let bundle_copy :=
        if swaps_artist_and_title (PlaylistItem.Url item) then
          Engine.mkBundle (Engine.bundle_artist bundle_copy)
                          (Engine.bundle_title bundle_copy)
                          (Engine.bundle_album bundle_copy)
        else bundle_copy in
      let song :=
        MergeFromSimpleMetaBundle (PlaylistItem.Metadata item) bundle_copy in
      (* Ignore useless metadata *)
      if QStr.isEmpty (title song) && QStr.isEmpty (artist song) then st
      else on_playlist (SetStreamMetadata (PlaylistItem.Url item) song) st
  end.

Definition GetItemAt (pos : Z) (st : Player) : indexing :=
  if (pos <? 0) || (pos >=? rowCount (active st)) then Indexed None
  else item_at_row (active st) pos.

Definition Mute (st : Player) : Player :=
  let current_volume := Engine.volume (engine_ st) in
  if current_volume =? 0 then SetVolume (volume_before_mute_ st) st
  else
    let st := set_volume_before_mute_ current_volume st in
    SetVolume 0 st.

Definition Pause (st : Player) : Player :=
  match GetState st with
  | Engine.Playing => on_engine Engine.Pause st
  | Engine.Paused => on_engine Engine.Unpause st
  | _ => st
  end.

Definition ShowOSD (st : Player) : Player :=
  match current_item_ st with
  | Some current => emit (SigForceShowOSD (PlaylistItem.Metadata current)) st
  | None => st
  end.

Definition TrackAboutToEnd (fuel : nat) (st : Player) : outcome :=
  if Engine.is_autocrossfade_enabled (engine_ st) then
    NextInternal fuel Engine.Auto st
  else
    match current_item_ st with
    | None => NullDeref
    | Some current =>
        if PlaylistItem.has current PlaylistItem.ContainsMultipleTracks
        then Ok st
        else if next_index (active st) =? -1 then Ok st
        else
          match item_at (active st) (next_index (active st)) with
          | None => Ok st
          | Some item =>
              let url := PlaylistItem.Url item in
              (* Get the actual track URL rather than the stream URL. *)
              if PlaylistItem.has item PlaylistItem.ContainsMultipleTracks
              then
                let '(result, st) := call_LoadNext item st in
                match result with
                | PlaylistItem.NoMoreTracks => Ok st
                | PlaylistItem.WillLoadAsynchronously _ =>
                    Ok (set_loading_async_ (PlaylistItem.Url item) st)
                | PlaylistItem.TrackAvailable _ media_url_ =>
                    Ok (on_engine (Engine.StartPreloading media_url_) st)
                end
              else Ok (on_engine (Engine.StartPreloading url) st)
          end
    end.

End PlayerFunctions.

(** ** States the properties speak of *)
Section Vocabulary.

Context {nav : Navigation}.

(** What [HandleSpecialLoad] does with a track that is still wanted. *)
Definition play_resolved (item : PlaylistItem.t) (media_url_ : QUrl)
    (st : Player) : Player :=
  set_loading_async_ QUrl_empty
    (set_current_item_ (Some item)
       (on_engine (Engine.Play media_url_ (stream_change_type_ st)) st)).

(** The state [PlayAt] returns in when it finds its item loading. *)
Definition moved_to (index : Z) (reshuffle : bool) (item : PlaylistItem.t)
    (st : Player) : Player :=
  set_current_item_ (Some item)
    (on_playlist (set_current_index index)
       (if reshuffle then on_playlist (set_current_index (-1)) st else st)).

(** What [NextInternal] announces before anything else. *)
Definition skipped (change : Engine.TrackChangeType) (st : Player) : Player :=
  match change with
  | Engine.Manual => emit (SigTrackSkipped (current_item_ st)) st
  | _ => st
  end.

End Vocabulary.

(** ** A small world to run the player in *)
Module Sample.

(** A playlist walked in row order, without repeat. *)
Definition linear : Navigation := {|
  next_index := fun pl =>
    if current_index pl + 1 <? rowCount pl then current_index pl + 1 else -1;
  previous_index := fun pl =>
    if 0 <? current_index pl then current_index pl - 1 else -1
|}.

Definition url_file : QUrl :=
  mkQUrl "file" EmptyString "/music/one.ogg" EmptyString.
Definition url_radio : QUrl :=
  mkQUrl "lastfm" "artist" "/radio" EmptyString.
Definition url_resolved : QUrl :=
  mkQUrl "http" "cdn.example.org" "/42.mp3" EmptyString.
Definition url_stream : QUrl :=
  mkQUrl "http" "radio.example.org" "/live" EmptyString.
Definition url_icecast : QUrl :=
  mkQUrl "http" "radio.example.org" "/live" "icecast".

Definition no_song : Song := mkSong EmptyString EmptyString EmptyString.

(** A local file: no special behaviour. *)
Definition file_item : PlaylistItem.t :=
  PlaylistItem.mk url_file 0 (mkSong "One" "Somebody" EmptyString)
    (fun _ => PlaylistItem.NoMoreTracks) (fun _ => PlaylistItem.NoMoreTracks).

(** A radio whose tracks are resolved over the network. *)
Definition radio_item : PlaylistItem.t :=
  PlaylistItem.mk url_radio
    (Z.lor PlaylistItem.SpecialPlayBehaviour PlaylistItem.ContainsMultipleTracks)
    no_song
    (fun _ => PlaylistItem.WillLoadAsynchronously url_radio)
    (fun _ => PlaylistItem.WillLoadAsynchronously url_radio).

(** A container of several tracks that plays like an ordinary item. *)
Definition container_item : PlaylistItem.t :=
  PlaylistItem.mk url_radio PlaylistItem.ContainsMultipleTracks no_song
    (fun _ => PlaylistItem.NoMoreTracks)
    (fun _ => PlaylistItem.WillLoadAsynchronously url_radio).

(** A station whose playlist is fetched before it plays: special play
    behaviour, but one track. *)
Definition url_station : QUrl :=
  mkQUrl "somafm" EmptyString "/groovesalad" EmptyString.

Definition station_item : PlaylistItem.t :=
  PlaylistItem.mk url_station PlaylistItem.SpecialPlayBehaviour no_song
    (fun _ => PlaylistItem.WillLoadAsynchronously url_station)
    (fun _ => PlaylistItem.NoMoreTracks).

Definition stream_item : PlaylistItem.t :=
  PlaylistItem.mk url_stream 0 no_song
    (fun _ => PlaylistItem.NoMoreTracks) (fun _ => PlaylistItem.NoMoreTracks).

Definition icecast_item : PlaylistItem.t :=
  PlaylistItem.mk url_icecast 0 no_song
    (fun _ => PlaylistItem.NoMoreTracks) (fun _ => PlaylistItem.NoMoreTracks).

Definition playlist_of (l : list PlaylistItem.t) (current : Z) : Playlist :=
  mkPlaylist l current [] (-1) (-1) false [].

(** A player as [Init] leaves it: engine at volume 50, a track of five
    seconds, nothing loading. *)
Definition player_on (pl : Playlist) : Player :=
  mkPlayer pl (mkLastFM false [])
           (Engine.mkBase 50 Engine.Empty 5000 false [])
           None QUrl_empty Engine.First 50 50 [] [].

Definition idle : Player := player_on (playlist_of [file_item; radio_item] (-1)).

Definition on_radio : Player := player_on (playlist_of [radio_item] (-1)).

Definition on_container : Player :=
  player_on (playlist_of [container_item] 0).

Definition on_stream : Player := player_on (playlist_of [stream_item] 0).

Definition on_station : Player :=
  player_on (playlist_of [station_item; file_item; stream_item] (-1)).

Definition on_icecast : Player := player_on (playlist_of [icecast_item] 0).

Definition icy_bundle : Engine.SimpleMetaBundle :=
  Engine.mkBundle "Artist Name - Track Title" EmptyString EmptyString.

(** The radio under the cursor, its first track being resolved. *)
Definition radio_loading : Player :=
  mkPlayer (playlist_of [file_item; radio_item] 1) (mkLastFM false [])
           (Engine.mkBase 50 Engine.Empty 5000 false [])
           (Some radio_item) url_radio Engine.Manual 50 50 []
           [ReqStartLoading url_radio].

End Sample.

(** ** The rest of [Player]: construction, and the play, pause and
    metadata slots *)

(** The engines [CreateEngine] knows, and which of them a build has
    ([HAVE_GSTREAMER] and the like). *)
Inductive EngineType : Type :=
| Type_GStreamer
| Type_VLC
| Type_Xine
| Type_QtPhonon.

Record Build : Type := mkBuild {
  HAVE_GSTREAMER : bool;
  HAVE_LIBVLC : bool;
  HAVE_LIBXINE : bool;
  HAVE_QT_PHONON : bool
}.

(** [CreateEngine]: the engine object of the chosen kind, as [fresh] makes
    it; [None] is [qFatal("Selected engine not compiled in")]. *)
Definition CreateEngine (build : Build) (fresh : EngineType -> Engine.Base)
    (engine : EngineType) : option Engine.Base :=
  match engine with
  | Type_GStreamer =>
      if HAVE_GSTREAMER build then Some (fresh Type_GStreamer) else None
  | Type_VLC => if HAVE_LIBVLC build then Some (fresh Type_VLC) else None
  | Type_Xine => if HAVE_LIBXINE build then Some (fresh Type_Xine) else None
  | Type_QtPhonon =>
      if HAVE_QT_PHONON build then Some (fresh Type_QtPhonon) else None
  end.

(** [settings_.value("volume", 50).toInt()], [stored] being what the
    settings hold under the key. *)
Definition stored_volume (stored : option Z) : Z :=
  match stored with
  | Some v => v
  | None => 50
  end.

(** The constructor: the members as the initialiser list and the default
    constructors leave them, then [SetVolume] of the stored volume.  [None]
    when [CreateEngine] is fatal. *)
Definition Player_new (build : Build) (fresh : EngineType -> Engine.Base)
    (playlists : Playlist) (lastfm : LastFMService) (engine : EngineType)
    (stored : option Z) : option Player :=
  match CreateEngine build fresh engine with
  | None => None
  | Some e =>
      Some (SetVolume (stored_volume stored)
              (mkPlayer playlists lastfm e None QUrl_empty Engine.First 50
                        (stored_volume stored) [] []))
  end.

(** [Init]: [engine_init] is what [engine_->Init()] answers; [None] is
    [qFatal("Error initialising audio engine")]. *)
Definition Init (engine_init : bool) (st : Player) : option Player :=
  if negb engine_init then None
  else Some (on_engine (Engine.SetVolume (settings_volume st)) st).

Definition CurrentMetadataChanged (metadata : Song) (st : Player) : Player :=
  on_lastfm (NowPlaying metadata) st.

(** Modelled from the spec: the playlist manager ([playlistmanager.h] is
    not among the sources).  [SetActivePlaylist(current_id())] makes the
    playlist on display, [current], the active one. *)
Definition SetActivePlaylist (current : Playlist) (st : Player) : Player :=
  on_playlist (fun _ => current) st.

Section RestOfThePlayer.

Context {nav : Navigation}.

Definition PlayPause (fuel : nat) (current : Playlist) (st : Player)
  : outcome :=
  match Engine.state (engine_ st) with
  | Engine.Paused => Ok (on_engine Engine.Unpause st)
  | Engine.Playing =>
      (* We really shouldn't pause last.fm streams.  Stopping seems like a
         reasonable thing to do *)
      match current_item_ st with
      | None => NullDeref
      | Some item =>
          if PlaylistItem.has item PlaylistItem.PauseDisabled
          then Ok (on_engine Engine.Stop st)
          else Ok (on_engine Engine.Pause st)
      end
  | Engine.Empty | Engine.Idle =>
      let st := SetActivePlaylist current st in
      if rowCount (active st) =? 0 then Ok st
      else
        let i := current_index (active st) in
        let i := if i =? -1 then last_played_index (active st) else i in
        let i := if i =? -1 then 0 else i in
        PlayAt fuel i Engine.First true st
  end.

Definition Play (fuel : nat) (current : Playlist) (st : Player) : outcome :=
  match GetState st with
  | Engine.Playing => Ok (Seek 0 st)
  | Engine.Paused => Ok (on_engine Engine.Unpause st)
  | _ => PlayPause fuel current st
  end.

(** What reaches the player: the calls of its user and the signals of the
    engine and of the items. *)
Inductive event : Type :=
| EvPlayAt (index : Z) (change : Engine.TrackChangeType) (reshuffle : bool)
| EvNext
| EvPrevious
| EvStop
| EvPlayPause (current : Playlist)
| EvPlay (current : Playlist)
| EvPause
| EvSetVolume (value : Z)
| EvMute
| EvSeek (seconds : Z)
| EvShowOSD
| EvTrackAboutToEnd
| EvTrackEnded
| EvEngineStateChanged (state : Engine.State)
| EvEngineMetadataReceived (bundle : Engine.SimpleMetaBundle)
| EvSpecialLoad (result : PlaylistItem.SpecialLoadResult)
| EvCurrentMetadataChanged (metadata : Song).

Definition handle (fuel : nat) (ev : event) (st : Player) : outcome :=
  match ev with
  | EvPlayAt index change reshuffle => PlayAt fuel index change reshuffle st
  | EvNext => Next fuel st
  | EvPrevious => Previous fuel st
  | EvStop => Ok (Stop st)
  | EvPlayPause current => PlayPause fuel current st
  | EvPlay current => Play fuel current st
  | EvPause => Ok (Pause st)
  | EvSetVolume value => Ok (SetVolume value st)
  | EvMute => Ok (Mute st)
  | EvSeek seconds => Ok (Seek seconds st)
  | EvShowOSD => Ok (ShowOSD st)
  | EvTrackAboutToEnd => TrackAboutToEnd fuel st
  | EvTrackEnded => TrackEnded fuel st
  | EvEngineStateChanged state => Ok (EngineStateChanged state st)
  | EvEngineMetadataReceived bundle => Ok (EngineMetadataReceived bundle st)
  | EvSpecialLoad result => HandleSpecialLoad fuel result st
  | EvCurrentMetadataChanged metadata => Ok (CurrentMetadataChanged metadata st)
  end.

Fixpoint handle_all (fuel : nat) (evs : list event) (st : Player) : outcome :=
  match evs with
  | [] => Ok st
  | ev :: evs' =>
      match handle fuel ev st with
      | Ok st' => handle_all fuel evs' st'
      | failed => failed
      end
  end.

(** The events that move through the playlist. *)
Definition navigates (ev : event) : bool :=
  match ev with
  | EvPlayAt _ _ _ | EvNext | EvPrevious | EvStop | EvTrackAboutToEnd
  | EvTrackEnded | EvSpecialLoad _ => true
  | _ => false
  end.

End RestOfThePlayer.

(** The player after [PlayAt] has played the item of an ordinary row. *)
Definition plays (index : Z) (change : Engine.TrackChangeType)
    (reshuffle : bool) (item : PlaylistItem.t) (st : Player) : Player :=
  let played :=
    on_engine (Engine.Play (PlaylistItem.Url item) change)
      (set_loading_async_ QUrl_empty (moved_to index reshuffle item st)) in
  if IsScrobblingEnabled (lastfm_ st)
  then on_lastfm (NowPlaying (PlaylistItem.Metadata item)) played
  else played.

(** ** What a step leaves alone *)

(** The requests that moving through the playlist makes of the engine. *)
Definition navigation_call (c : Engine.Call) : bool :=
  match c with
  | Engine.CPlay _ _ | Engine.CStop | Engine.CStartPreloading _ => true
  | _ => false
  end.

(** [st'] differs from [st] by navigation only: the volume (of the engine,
    persisted, and cached for unmuting) is the same, and what the engine
    was asked in between is only to play, stop or preload. *)
Definition only_navigated (st st' : Player) : Prop :=
  Engine.volume (engine_ st') = Engine.volume (engine_ st)
  /\ settings_volume st' = settings_volume st
  /\ volume_before_mute_ st' = volume_before_mute_ st
  /\ exists l,
       Engine.calls (engine_ st') = Engine.calls (engine_ st) ++ l
       /\ forallb navigation_call l = true.

(** A relation between players that every elementary step of navigation
    respects. *)
Record step_closed (R : Player -> Player -> Prop) : Prop := mk_step_closed {
  closed_refl : forall st, R st st;
  closed_trans : forall a b c, R a b -> R b c -> R a c;
  closed_cursor : forall i st, R st (on_playlist (set_current_index i) st);
  closed_stop_after : forall r st, R st (on_playlist (StopAfter r) st);
  closed_item : forall x st, R st (set_current_item_ x st);
  closed_token : forall u st, R st (set_loading_async_ u st);
  closed_change : forall c st, R st (set_stream_change_type_ c st);
  closed_play : forall u c st, R st (on_engine (Engine.Play u c) st);
  closed_stop : forall st, R st (on_engine Engine.Stop st);
  closed_preload : forall u st, R st (on_engine (Engine.StartPreloading u) st);
  closed_scrobble : forall s st, R st (on_lastfm (NowPlaying s) st);
  closed_emit : forall s st, R st (emit s st);
  closed_start : forall item st, R st (snd (call_StartLoading item st));
  closed_next : forall item st, R st (snd (call_LoadNext item st))
}.

(** The player has stopped: no cursor, no current item, and the last thing
    the engine was asked is to stop. *)
Definition stopped (st : Player) : Prop :=
  current_index (active st) = -1
  /\ current_item_ st = None
  /\ exists l, Engine.calls (engine_ st) = l ++ [Engine.CStop].

(** After the signals [before], [st'] has emitted nothing more, or only
    [PlaylistFinished], and then it has stopped. *)
Definition announces_at_most_the_end (before : list Signal) (st' : Player)
  : Prop :=
  emitted st' = before
  \/ (emitted st' = before ++ [SigPlaylistFinished] /\ stopped st').

(** The current item the player holds is the one under the cursor of the
    active playlist. *)
Definition follows_cursor (st : Player) : Prop :=
  current_item_ st = current_item (active st).

(** The persisted volume is the volume of the engine, and a volume. *)
Definition volume_in_step (st : Player) : Prop :=
  settings_volume st = Engine.volume (engine_ st)
  /\ 0 <= Engine.volume (engine_ st) <= 100.

(** ** More of the small world *)
Module Scenes.

(** The file is playing and is to be the last: the stop-after marker is on
    its row. *)
Definition last_wish : Player :=
  mkPlayer
    (mkPlaylist [Sample.file_item; Sample.radio_item] 0 [] (-1) 0 false [])
    (mkLastFM false [])
    (Engine.mkBase 50 Engine.Playing 5000 false [])
    (Some Sample.file_item) QUrl_empty Engine.First 50 50 [] [].

(** The file is playing and an internet stream comes next. *)
Definition file_then_stream : Player :=
  mkPlayer
    (mkPlaylist [Sample.file_item; Sample.stream_item] 0 [] (-1) (-1) false [])
    (mkLastFM true [])
    (Engine.mkBase 50 Engine.Playing 5000 false [])
    (Some Sample.file_item) QUrl_empty Engine.First 50 50 [] [].

(** The file is playing and the radio comes next. *)
Definition file_then_radio : Player :=
  mkPlayer
    (mkPlaylist [Sample.file_item; Sample.radio_item] 0 [] (-1) (-1) false [])
    (mkLastFM false [])
    (Engine.mkBase 50 Engine.Playing 5000 false [])
    (Some Sample.file_item) QUrl_empty Engine.First 50 50 [] [].

(** A last.fm radio is playing: it may not be paused. *)
Definition lastfm_item : PlaylistItem.t :=
  PlaylistItem.mk Sample.url_radio
    (Z.lor PlaylistItem.PauseDisabled
       (Z.lor PlaylistItem.SpecialPlayBehaviour
          PlaylistItem.ContainsMultipleTracks))
    Sample.no_song
    (fun _ => PlaylistItem.WillLoadAsynchronously Sample.url_radio)
    (fun _ => PlaylistItem.WillLoadAsynchronously Sample.url_radio).

Definition lastfm_playing : Player :=
  mkPlayer
    (mkPlaylist [lastfm_item] 0 [] (-1) (-1) false [])
    (mkLastFM true [])
    (Engine.mkBase 50 Engine.Playing 5000 false [])
    (Some lastfm_item) QUrl_empty Engine.First 50 50 [] [].

(** A build with GStreamer only, and its engine as it is made. *)
Definition gstreamer_only : Build := mkBuild true false false false.

Definition fresh_engine (_ : EngineType) : Engine.Base :=
  Engine.mkBase 50 Engine.Empty 0 false [].

(** A playlist that repeats its one row. *)
Definition repeat_one : Navigation := {|
  next_index := fun _ => 0;
  previous_index := fun _ => 0
|}.

(** A radio that has run dry: it never has a track to give. *)
Definition url_dry : QUrl :=
  mkQUrl "lastfm" "tag" "/dry" EmptyString.

Definition dry_item : PlaylistItem.t :=
  PlaylistItem.mk url_dry
    (Z.lor PlaylistItem.SpecialPlayBehaviour PlaylistItem.ContainsMultipleTracks)
    Sample.no_song
    (fun _ => PlaylistItem.NoMoreTracks) (fun _ => PlaylistItem.NoMoreTracks).

Definition on_dry : Player :=
  Sample.player_on (Sample.playlist_of [dry_item] (-1)).

End Scenes.

(** ** Locators compare by their components *)

Lemma QUrl_eqb_eq (a b : QUrl) : QUrl_eqb a b = true <-> a = b.
Proof.
  destruct a as [s1 h1 p1 f1], b as [s2 h2 p2 f2]; unfold QUrl_eqb; simpl.
  rewrite !andb_true_iff, !String.eqb_eq.
  split.
  - intros [[[-> ->] ->] ->]; reflexivity.
  - intros E; injection E as -> -> -> ->; auto.
Qed.

Lemma QUrl_eqb_refl (a : QUrl) : QUrl_eqb a a = true.
Proof. apply QUrl_eqb_eq; reflexivity. Qed.

Lemma QUrl_eqb_neq (a b : QUrl) : QUrl_eqb a b = false <-> a <> b.
Proof.
  rewrite <- QUrl_eqb_eq. destruct (QUrl_eqb a b); split; congruence.
Qed.

(** ** Volume *)

Lemma qBound_cases (lo v hi : Z) :
  lo <= hi ->
  qBound lo v hi = if v <? lo then lo else if hi <? v then hi else v.
Proof.
  intros H; unfold qBound.
  destruct (Z.ltb_spec v lo); destruct (Z.ltb_spec hi v); lia.
Qed.

Lemma qBound_fixed (lo v hi : Z) :
  lo <= v <= hi -> qBound lo v hi = v.
Proof. unfold qBound; lia. Qed.

Lemma SetVolume_volume (value : Z) (st : Player) :
  Engine.volume (engine_ (SetVolume value st)) = qBound 0 value 100.
Proof.
  unfold SetVolume. destruct (negb _); reflexivity.
Qed.

(** C6.  [SetVolume(v)] works with [v] clamped to 0..100: it behaves as
    [SetVolume] of the clamped value (so -5 behaves as 0 and 150 as 100),
    stores the clamped value in the settings, hands it to the engine, and
    emits [VolumeChanged] exactly when the clamped value is not the volume
    the engine reported before the call. *)
Theorem SetVolume_clamps_persists_forwards (value : Z) (st : Player) :
  let clamped := if value <? 0 then 0 else if 100 <? value then 100 else value in
  SetVolume value st = SetVolume clamped st
  /\ SetVolume (-5) st = SetVolume 0 st
  /\ SetVolume 150 st = SetVolume 100 st
  /\ settings_volume (SetVolume value st) = clamped
  /\ Engine.volume (engine_ (SetVolume value st)) = clamped
  /\ Engine.calls (engine_ (SetVolume value st))
     = Engine.calls (engine_ st) ++ [Engine.CSetVolume clamped]
  /\ emitted (SetVolume value st)
     = emitted st ++ (if clamped =? Engine.volume (engine_ st) then []
                      else [SigVolumeChanged clamped]).
Proof.
  intros clamped.
  assert (Hc : qBound 0 value 100 = clamped)
    by (subst clamped; apply qBound_cases; lia).
  assert (Hcc : qBound 0 clamped 100 = clamped).
  { apply qBound_fixed. subst clamped.
    destruct (Z.ltb_spec value 0); destruct (Z.ltb_spec 100 value); lia. }
  refine (conj _ (conj _ (conj _ (conj _ (conj _ (conj _ _)))))).
  - unfold SetVolume. rewrite Hc, Hcc. reflexivity.
  - reflexivity.
  - reflexivity.
  - unfold SetVolume. rewrite Hc. destruct (negb _); reflexivity.
  - rewrite SetVolume_volume. exact Hc.
  - unfold SetVolume. rewrite Hc. destruct (negb _); reflexivity.
  - unfold SetVolume. rewrite Hc.
    destruct (clamped =? Engine.volume (engine_ st)); simpl.
    + rewrite app_nil_r. reflexivity.
    + reflexivity.
Qed.

(** C7.  Muting twice gives the engine its volume back: after
    [SetVolume(70)] the engine volume is 70, after [Mute] it is 0, and after
    a second [Mute] it is 70 again; and from any engine volume [v] between
    1 and 100 the first [Mute] makes the engine volume 0 and the second
    makes it [v] again. *)
Theorem Mute_twice_restores_volume (st : Player) :
  (GetVolume (SetVolume 70 st) = 70
   /\ GetVolume (Mute (SetVolume 70 st)) = 0
   /\ GetVolume (Mute (Mute (SetVolume 70 st))) = 70)
  /\ (forall v : Z,
        0 < v <= 100 ->
        Engine.volume (engine_ st) = v ->
        GetVolume (Mute st) = 0
        /\ volume_before_mute_ (Mute st) = v
        /\ GetVolume (Mute (Mute st)) = v).
Proof.
  assert (Hgen : forall s w, 0 < w <= 100 -> Engine.volume (engine_ s) = w ->
            GetVolume (Mute s) = 0
            /\ volume_before_mute_ (Mute s) = w
            /\ GetVolume (Mute (Mute s)) = w).
  { intros s w Hw Hs. unfold GetVolume.
    assert (H1 : Mute s = SetVolume 0 (set_volume_before_mute_ w s)).
    { unfold Mute. rewrite Hs.
      destruct (Z.eqb_spec w 0); [lia | reflexivity]. }
    assert (H1v : Engine.volume (engine_ (Mute s)) = 0).
    { rewrite H1, SetVolume_volume. reflexivity. }
    assert (Hb : volume_before_mute_ (Mute s) = w).
    { rewrite H1. unfold SetVolume. destruct (negb _); reflexivity. }
    split; [exact H1v | split; [exact Hb |]].
    unfold Mute at 1. rewrite H1v. simpl (0 =? 0). cbv iota.
    rewrite SetVolume_volume, Hb. apply qBound_fixed. lia. }
  assert (H70 : Engine.volume (engine_ (SetVolume 70 st)) = 70)
    by (rewrite SetVolume_volume; reflexivity).
  destruct (Hgen (SetVolume 70 st) 70 ltac:(lia) H70) as (C & _ & D).
  split.
  - exact (conj H70 (conj C D)).
  - intros v Hrange Hvol. exact (Hgen st v Hrange Hvol).
Qed.

(** The round trip, run from the sample player at volume 50. *)
Lemma Mute_twice_restores_volume_witness :
  GetVolume (Mute Sample.idle) = 0
  /\ volume_before_mute_ (Mute Sample.idle) = 50
  /\ GetVolume (Mute (Mute Sample.idle)) = 50.
Proof.
  refine (proj2 (Mute_twice_restores_volume Sample.idle) 50 _ _);
    [lia | reflexivity].
Defined.

(** ** Seeking *)

Lemma to_int_in_range (z : Z) :
  - 2 ^ 31 <= z < 2 ^ 31 -> to_int z = z.
Proof.
  intros H. unfold to_int.
  rewrite Z.mod_small by lia. lia.
Qed.

(** C8, as the code has it.  When [seconds * 1000] is an [int] and the
    track length is one too, [Seek(seconds)] asks the engine to seek to
    [seconds * 1000] clamped to 0..length, asks nothing else of it, and
    leaves the active playlist marked as scrobbled whatever the mark was. *)
Theorem Seek_clamps_and_marks_scrobbled (seconds : Z) (st : Player)
    (Hms : - 2 ^ 31 <= seconds * 1000 < 2 ^ 31)
    (Hlen : 0 <= Engine.length (engine_ st) < 2 ^ 31) :
  let len := Engine.length (engine_ st) in
  let msec := if seconds * 1000 <? 0 then 0
              else if len <? seconds * 1000 then len else seconds * 1000 in
  0 <= msec <= len
  /\ Engine.calls (engine_ (Seek seconds st))
     = Engine.calls (engine_ st) ++ [Engine.CSeek msec]
  /\ scrobbled (active (Seek seconds st)) = true.
Proof.
  intros len msec.
  assert (Hq : qBound 0 (to_int (seconds * 1000)) (to_int len) = msec).
  { rewrite !to_int_in_range by (subst len; lia).
    subst msec. apply qBound_cases. subst len; lia. }
  split; [| split].
  - subst msec len.
    destruct (Z.ltb_spec (seconds * 1000) 0);
      destruct (Z.ltb_spec (Engine.length (engine_ st)) (seconds * 1000)); lia.
  - unfold Seek. fold len. rewrite Hq. reflexivity.
  - reflexivity.
Qed.

(** [Seek(30)] on a track of five seconds seeks to its end. *)
Lemma Seek_clamps_and_marks_scrobbled_witness :
  0 <= 5000 <= 5000
  /\ Engine.calls (engine_ (Seek 30 Sample.idle)) = [Engine.CSeek 5000]
  /\ scrobbled (active (Seek 30 Sample.idle)) = true.
Proof.
  refine (Seek_clamps_and_marks_scrobbled 30 Sample.idle _ _);
    simpl; lia.
Defined.

(** C8, as stated, fails where [seconds * 1000] leaves the range of [int]:
    [Seek(3000000)] on a track of five seconds does not seek to 3000000000
    clamped to 0..5000, which is 5000; the product wraps to a negative
    [int] and the engine is asked to seek to 0. *)
Lemma Seek_3000000_is_not_the_clamp :
  qBound 0 (3000000 * 1000) (Engine.length (engine_ Sample.idle)) = 5000
  /\ Engine.calls (engine_ (Seek 3000000 Sample.idle)) = [Engine.CSeek 0]
  /\ Engine.calls (engine_ (Seek 3000000 Sample.idle))
     <> Engine.calls (engine_ Sample.idle)
        ++ [Engine.CSeek (qBound 0 (3000000 * 1000)
                            (Engine.length (engine_ Sample.idle)))].
Proof.
  split; [reflexivity | split; [reflexivity |]].
  vm_compute. intros E. discriminate E.
Qed.

(** ** Items by position *)

(** C9.  [GetItemAt(pos)] always answers, and never by indexing outside
    the rows: where [pos] is negative or not below the row count, which is
    where indexing the rows with it would be out of bounds, it hands out a
    null handle; otherwise it hands out the item in row [pos] of the active
    playlist. *)
Theorem GetItemAt_total (pos : Z) (st : Player) :
  GetItemAt pos st <> OutOfBounds
  /\ (pos < 0 \/ rowCount (active st) <= pos ->
      item_at_row (active st) pos = OutOfBounds
      /\ GetItemAt pos st = Indexed None)
  /\ (0 <= pos < rowCount (active st) ->
      exists item,
        GetItemAt pos st = Indexed (Some item)
        /\ nth_error (items (active st)) (Z.to_nat pos) = Some item).
Proof.
  unfold GetItemAt, item_at_row, item_at, rowCount.
  set (n := Z.of_nat (List.length (items (active st)))).
  assert (Hrow : 0 <= pos < n ->
                 exists item,
                   nth_error (items (active st)) (Z.to_nat pos) = Some item).
  { intros [H0 H1].
    destruct (nth_error (items (active st)) (Z.to_nat pos)) as [item |] eqn:E.
    - exists item. reflexivity.
    - apply nth_error_None in E. lia. }
  assert (Hout : pos < 0 \/ n <= pos ->
                 (pos <? 0) || (pos >=? n) = true
                 /\ (0 <=? pos) && (pos <? n) = false).
  { intros H.
    destruct (Z.ltb_spec pos 0); destruct (Z.geb_spec pos n);
      destruct (Z.leb_spec 0 pos); destruct (Z.ltb_spec pos n);
      try lia; split; reflexivity. }
  assert (Hin : 0 <= pos < n ->
                (pos <? 0) || (pos >=? n) = false
                /\ (0 <=? pos) && (pos <? n) = true).
  { intros H.
    destruct (Z.ltb_spec pos 0); destruct (Z.geb_spec pos n);
      destruct (Z.leb_spec 0 pos); destruct (Z.ltb_spec pos n);
      try lia; split; reflexivity. }
  destruct (Z_lt_dec pos 0) as [Hneg | Hpos];
    [| destruct (Z_le_dec n pos) as [Hhigh | Hlow]].
  - destruct (Hout (or_introl Hneg)) as [-> ->].
    split; [discriminate |]. split; [intros _; split; reflexivity | lia].
  - destruct (Hout (or_intror Hhigh)) as [-> ->].
    split; [discriminate |]. split; [intros _; split; reflexivity | lia].
  - assert (Hbounds : 0 <= pos < n) by lia.
    destruct (Hin Hbounds) as [-> ->].
    destruct (Z.ltb_spec pos 0); [lia |].
    destruct (Hrow Hbounds) as [item Hitem]. rewrite Hitem.
    split; [discriminate |]. split; [lia |].
    intros _. exists item. split; reflexivity.
Qed.

(** Rows -1, 5 and 1 of the sample playlist of two rows. *)
Lemma GetItemAt_total_witness :
  GetItemAt (-1) Sample.idle <> OutOfBounds
  /\ (item_at_row (active Sample.idle) 5 = OutOfBounds
      /\ GetItemAt 5 Sample.idle = Indexed None)
  /\ exists item,
       GetItemAt 1 Sample.idle = Indexed (Some item)
       /\ nth_error (items (active Sample.idle)) (Z.to_nat 1) = Some item.
Proof.
  split; [| split].
  - exact (proj1 (GetItemAt_total (-1) Sample.idle)).
  - refine (proj1 (proj2 (GetItemAt_total 5 Sample.idle)) _).
    right. unfold rowCount. simpl. lia.
  - refine (proj2 (proj2 (GetItemAt_total 1 Sample.idle)) _).
    unfold rowCount. simpl. lia.
Defined.

(** ** Metadata from the engine *)

(** C10.  With no current item in the active playlist,
    [EngineMetadataReceived] returns at once: the player, and with it the
    metadata store of the playlist, is as it was. *)
Theorem EngineMetadataReceived_without_current_item
    (bundle : Engine.SimpleMetaBundle) (st : Player)
    (Hnull : current_item (active st) = None) :
  EngineMetadataReceived bundle st = st
  /\ stream_metadata (active (EngineMetadataReceived bundle st))
     = stream_metadata (active st).
Proof.
  unfold EngineMetadataReceived. rewrite Hnull. split; reflexivity.
Qed.

(** The sample player has stopped: its cursor is at -1. *)
Lemma EngineMetadataReceived_without_current_item_witness :
  EngineMetadataReceived Sample.icy_bundle Sample.idle = Sample.idle
  /\ stream_metadata (active (EngineMetadataReceived Sample.icy_bundle Sample.idle))
     = stream_metadata (active Sample.idle).
Proof.
  refine (EngineMetadataReceived_without_current_item
            Sample.icy_bundle Sample.idle _).
  reflexivity.
Defined.

(** ** Resolving special loads *)

Section Resolver.

Context {nav : Navigation}.

Lemma HandleSpecialLoad_TrackAvailable_stale (fuel : nat)
    (original media : QUrl) (st : Player) :
  current_index (active st) = -1
  \/ (exists item, item_at (active st) (current_index (active st)) = Some item
                   /\ PlaylistItem.Url item <> original) ->
  HandleSpecialLoad fuel (PlaylistItem.TrackAvailable original media) st
  = Ok st.
Proof.
  intros H. unfold HandleSpecialLoad, HandleSpecialLoad_with.
  destruct (Z.eqb_spec (current_index (active st)) (-1)) as [E | E];
    [reflexivity |].
  destruct H as [H | [item [Hitem Hurl]]]; [contradiction |].
  rewrite Hitem.
  apply QUrl_eqb_neq in Hurl. rewrite Hurl. reflexivity.
Qed.

Lemma HandleSpecialLoad_TrackAvailable_valid (fuel : nat)
    (original media : QUrl) (st : Player) (item : PlaylistItem.t) :
  current_index (active st) <> -1 ->
  item_at (active st) (current_index (active st)) = Some item ->
  PlaylistItem.Url item = original ->
  HandleSpecialLoad fuel (PlaylistItem.TrackAvailable original media) st
  = Ok (play_resolved item media st).
Proof.
  intros Hidx Hitem Hurl. unfold HandleSpecialLoad, HandleSpecialLoad_with.
  destruct (Z.eqb_spec (current_index (active st)) (-1)) as [E | E];
    [contradiction |].
  rewrite Hitem.
  apply QUrl_eqb_eq in Hurl. rewrite Hurl. reflexivity.
Qed.

(** C3.  A [TrackAvailable(original, resolved)] result is dropped when
    the cursor of the active playlist is at -1 or the item under it has
    another locator than [original]: the player is left exactly as it was,
    so the engine is asked nothing and the current item is not touched.
    When the item under the cursor has the locator [original], the engine
    is asked to play [resolved] with the recorded change type (and nothing
    else), that item becomes the current item and the async token is
    emptied. *)
Theorem HandleSpecialLoad_TrackAvailable (fuel : nat)
    (original resolved : QUrl) (st : Player) :
  let result := PlaylistItem.TrackAvailable original resolved in
  (current_index (active st) = -1
   \/ (exists item,
         item_at (active st) (current_index (active st)) = Some item
         /\ PlaylistItem.Url item <> original) ->
   HandleSpecialLoad fuel result st = Ok st)
  /\ (forall item,
        current_index (active st) <> -1 ->
        item_at (active st) (current_index (active st)) = Some item ->
        PlaylistItem.Url item = original ->
        exists st',
          HandleSpecialLoad fuel result st = Ok st'
          /\ Engine.calls (engine_ st')
             = Engine.calls (engine_ st)
               ++ [Engine.CPlay resolved (stream_change_type_ st)]
          /\ current_item_ st' = Some item
          /\ loading_async_ st' = QUrl_empty
          /\ active st' = active st
          /\ loads st' = loads st
          /\ emitted st' = emitted st).
Proof.
  intros result. split.
  - apply HandleSpecialLoad_TrackAvailable_stale.
  - intros item Hidx Hitem Hurl.
    exists (play_resolved item resolved st). split.
    + apply HandleSpecialLoad_TrackAvailable_valid; assumption.
    + repeat split.
Qed.

(** ** Running off the end of the playlist *)

(** C5.  When the playlist has no next index, [NextItem] returns, having
    set the cursor to -1, emitted [PlaylistFinished] and stopped: the
    engine was asked to stop, once, and nothing else, and the player
    holds no current item. *)
Theorem NextItem_at_end_of_playlist (fuel : nat)
    (change : Engine.TrackChangeType) (st : Player)
    (Hend : next_index (active st) = -1) :
  exists st',
    NextItem fuel change st = Ok st'
    /\ current_index (active st') = -1
    /\ index_history (active st') = -1 :: -1 :: index_history (active st)
    /\ emitted st' = emitted st ++ [SigPlaylistFinished]
    /\ Engine.calls (engine_ st') = Engine.calls (engine_ st) ++ [Engine.CStop]
    /\ List.length (filter Engine.is_stop (Engine.calls (engine_ st')))
       = S (List.length (filter Engine.is_stop (Engine.calls (engine_ st))))
    /\ current_item_ st' = None.
Proof.
  unfold NextItem, NextItem_with. rewrite Hend. simpl (-1 =? -1).
  eexists. split; [reflexivity |].
  simpl. repeat split.
  rewrite filter_app, length_app. simpl. lia.
Qed.

End Resolver.

(** The resolved track arrives after the player stopped, and while the
    radio is still under the cursor. *)
Lemma HandleSpecialLoad_TrackAvailable_witness :
  HandleSpecialLoad (nav := Sample.linear) 0
    (PlaylistItem.TrackAvailable Sample.url_radio Sample.url_resolved)
    Sample.idle = Ok Sample.idle
  /\ exists st',
       HandleSpecialLoad (nav := Sample.linear) 0
         (PlaylistItem.TrackAvailable Sample.url_radio Sample.url_resolved)
         Sample.radio_loading = Ok st'
       /\ Engine.calls (engine_ st')
          = [Engine.CPlay Sample.url_resolved Engine.Manual]
       /\ current_item_ st' = Some Sample.radio_item
       /\ loading_async_ st' = QUrl_empty
       /\ active st' = active Sample.radio_loading
       /\ loads st' = loads Sample.radio_loading
       /\ emitted st' = emitted Sample.radio_loading.
Proof.
  split.
  - refine (proj1 (HandleSpecialLoad_TrackAvailable (nav := Sample.linear) 0
                     Sample.url_radio Sample.url_resolved Sample.idle) _).
    left. reflexivity.
  - refine (proj2 (HandleSpecialLoad_TrackAvailable (nav := Sample.linear) 0
                     Sample.url_radio Sample.url_resolved Sample.radio_loading)
              Sample.radio_item _ _ _).
    + discriminate.
    + reflexivity.
    + reflexivity.
Defined.

(** The sample player sits on the last row of a one-row playlist. *)
Lemma NextItem_at_end_of_playlist_witness :
  exists st',
    NextItem (nav := Sample.linear) 0 Engine.Auto Sample.on_stream = Ok st'
    /\ current_index (active st') = -1
    /\ index_history (active st')
       = -1 :: -1 :: index_history (active Sample.on_stream)
    /\ emitted st' = emitted Sample.on_stream ++ [SigPlaylistFinished]
    /\ Engine.calls (engine_ st')
       = Engine.calls (engine_ Sample.on_stream) ++ [Engine.CStop]
    /\ List.length (filter Engine.is_stop (Engine.calls (engine_ st')))
       = S (List.length
              (filter Engine.is_stop (Engine.calls (engine_ Sample.on_stream))))
    /\ current_item_ st' = None.
Proof.
  refine (NextItem_at_end_of_playlist (nav := Sample.linear) 0 Engine.Auto
            Sample.on_stream _).
  reflexivity.
Defined.

(** ** Titles that carry the artist *)

Lemma isEmpty_false (s : string) : s <> EmptyString -> QStr.isEmpty s = false.
Proof. destruct s; [congruence | reflexivity]. Qed.

(** C1.  The bundle with title "Artist Name - Track Title" and no artist,
    received while the current item is a stream that is none of the
    providers [swaps_artist_and_title] names, is published with artist
    "Track Title" and title "Artist Name": the split takes the artist from
    after the '-' and the title from before it, although the source
    introduces it for a title field that holds "Artist - Title".  The
    bundle is published with artist "Artist Name" and title "Track Title"
    only for an item of one of those providers, where the two are
    exchanged again. *)
Theorem EngineMetadataReceived_artist_is_after_the_dash :
  swaps_artist_and_title Sample.url_stream = false
  /\ (exists song,
        stream_metadata (active (EngineMetadataReceived Sample.icy_bundle
                                                        Sample.on_stream))
        = [(Sample.url_stream, song)]
        /\ artist song = "Track Title"%string
        /\ title song = "Artist Name"%string
        /\ ~ (artist song = "Artist Name"%string
              /\ title song = "Track Title"%string))
  /\ swaps_artist_and_title Sample.url_icecast = true
  /\ (exists song,
        stream_metadata (active (EngineMetadataReceived Sample.icy_bundle
                                                        Sample.on_icecast))
        = [(Sample.url_icecast, song)]
        /\ artist song = "Artist Name"%string
        /\ title song = "Track Title"%string).
Proof.
  split; [vm_compute; reflexivity |]. split.
  - eexists. split; [vm_compute; reflexivity |]. cbn [artist title].
    split; [reflexivity | split; [reflexivity |]].
    intros [E _]. discriminate E.
  - split; [vm_compute; reflexivity |].
    eexists. split; [vm_compute; reflexivity |]. cbn [artist title].
    split; reflexivity.
Qed.

(** ** Asking twice for an item that is already loading *)

Section AlreadyLoading.

Context {nav : Navigation}.

Lemma item_at_nonnegative (pl : Playlist) (i : Z) (item : PlaylistItem.t) :
  item_at pl i = Some item -> 0 <= i.
Proof.
  unfold item_at. destruct (Z.ltb_spec i 0); [discriminate | lia].
Qed.

Lemma PlayAt_current_item (index : Z) (reshuffle : bool)
    (item : PlaylistItem.t) (st : Player) :
  item_at (active st) index = Some item ->
  set_current_item_
    (current_item
       (active (on_playlist (set_current_index index)
                  (if reshuffle then on_playlist (set_current_index (-1)) st
                   else st))))
    (on_playlist (set_current_index index)
       (if reshuffle then on_playlist (set_current_index (-1)) st else st))
  = moved_to index reshuffle item st.
Proof.
  intros Hitem. pose proof (item_at_nonnegative _ _ _ Hitem) as Hpos.
  unfold moved_to. f_equal.
  unfold current_item. cbn [active on_playlist set_current_index current_index].
  destruct (Z.eqb_spec index (-1)); [lia |].
  destruct reshuffle; exact Hitem.
Qed.

Lemma PlayAt_already_loading (fuel : nat) (index : Z)
    (change : Engine.TrackChangeType) (reshuffle : bool)
    (item : PlaylistItem.t) (st : Player) :
  item_at (active st) index = Some item ->
  PlaylistItem.has item PlaylistItem.SpecialPlayBehaviour = true ->
  PlaylistItem.Url item = loading_async_ st ->
  PlayAt fuel index change reshuffle st = Ok (moved_to index reshuffle item st).
Proof.
  intros Hitem Hspecial Hurl.
  destruct fuel; cbn [PlayAt]; unfold PlayAt_with;
    rewrite (PlayAt_current_item _ _ _ _ Hitem);
    cbn [moved_to current_item_ set_current_item_]; rewrite Hspecial;
    (replace (loading_async_ _) with (loading_async_ st)
      by (destruct reshuffle; reflexivity));
    rewrite Hurl, QUrl_eqb_refl; reflexivity.
Qed.

Lemma PlayAt_starts_async_load (fuel : nat) (index : Z)
    (change : Engine.TrackChangeType) (reshuffle : bool)
    (item : PlaylistItem.t) (st : Player) :
  item_at (active st) index = Some item ->
  PlaylistItem.has item PlaylistItem.SpecialPlayBehaviour = true ->
  PlaylistItem.Url item <> loading_async_ st ->
  PlaylistItem.StartLoading item (List.length (loads st))
  = PlaylistItem.WillLoadAsynchronously (PlaylistItem.Url item) ->
  PlayAt fuel index change reshuffle st
  = Ok (set_loading_async_ (PlaylistItem.Url item)
          (snd (call_StartLoading item
                  (set_stream_change_type_ change
                     (moved_to index reshuffle item st))))).
Proof.
  intros Hitem Hspecial Hurl Hanswer.
  apply QUrl_eqb_neq in Hurl.
  destruct fuel; cbn [PlayAt]; unfold PlayAt_with;
    rewrite (PlayAt_current_item _ _ _ _ Hitem);
    cbn [moved_to current_item_ set_current_item_]; rewrite Hspecial;
    (replace (loading_async_ _) with (loading_async_ st)
      by (destruct reshuffle; reflexivity));
    rewrite Hurl; unfold call_StartLoading;
    (replace (loads _) with (loads st) by (destruct reshuffle; reflexivity));
    rewrite Hanswer; reflexivity.
Qed.

Lemma NextInternal_already_loading (fuel : nat)
    (change : Engine.TrackChangeType) (item : PlaylistItem.t) (st : Player) :
  stop_after_current (active st) = false ->
  current_item (active st) = Some item ->
  PlaylistItem.has item PlaylistItem.ContainsMultipleTracks = true ->
  PlaylistItem.Url item = loading_async_ st ->
  NextInternal fuel change st
  = Ok (match change with
        | Engine.Manual => emit (SigTrackSkipped (current_item_ st)) st
        | _ => st
        end).
Proof.
  intros Hstop Hcur Hmulti Hurl. unfold NextInternal.
  destruct change; cbn [active emit]; rewrite Hstop, Hcur, Hmulti;
    cbn [loading_async_ emit]; rewrite Hurl, QUrl_eqb_refl; reflexivity.
Qed.

Lemma NextInternal_starts_async_load (fuel : nat)
    (change : Engine.TrackChangeType) (item : PlaylistItem.t) (st : Player) :
  stop_after_current (active st) = false ->
  current_item (active st) = Some item ->
  PlaylistItem.has item PlaylistItem.ContainsMultipleTracks = true ->
  PlaylistItem.Url item <> loading_async_ st ->
  PlaylistItem.LoadNext item (List.length (loads st))
  = PlaylistItem.WillLoadAsynchronously (PlaylistItem.Url item) ->
  NextInternal fuel change st
  = Ok (set_loading_async_ (PlaylistItem.Url item)
          (snd (call_LoadNext item
                  (set_stream_change_type_ change (skipped change st))))).
Proof.
  intros Hstop Hcur Hmulti Hurl Hanswer.
  apply QUrl_eqb_neq in Hurl. unfold NextInternal.
  destruct change; cbn [active emit skipped]; rewrite Hstop, Hcur, Hmulti;
    cbn [loading_async_ emit]; rewrite Hurl;
    unfold call_LoadNext, HandleSpecialLoad, HandleSpecialLoad_with;
    cbn [loads set_stream_change_type_ emit]; rewrite Hanswer; reflexivity.
Qed.

End AlreadyLoading.

Section AskingTwice.

Context {nav : Navigation}.

Lemma moved_to_facts (index : Z) (reshuffle : bool) (item : PlaylistItem.t)
    (st : Player) :
  (forall j, item_at (active (moved_to index reshuffle item st)) j
             = item_at (active st) j)
  /\ current_index (active (moved_to index reshuffle item st)) = index
  /\ Engine.calls (engine_ (moved_to index reshuffle item st))
     = Engine.calls (engine_ st)
  /\ loads (moved_to index reshuffle item st) = loads st
  /\ loading_async_ (moved_to index reshuffle item st) = loading_async_ st
  /\ stream_change_type_ (moved_to index reshuffle item st)
     = stream_change_type_ st
  /\ current_item_ (moved_to index reshuffle item st) = Some item.
Proof.
  destruct reshuffle; repeat split.
Qed.

(** C4, as the code has it.  [PlayAt] on an item with
    [SpecialPlayBehaviour] whose locator is the async token returns
    without asking the item to load or the engine to play; so does
    [NextInternal] when the current item of the playlist has
    [ContainsMultipleTracks], its locator is the async token and no
    stop-after marker is pending on it.  So when the first of two calls
    of [PlayAt], or of [NextInternal], in a row starts an asynchronous
    load of such an item, the second asks for nothing, and once the track
    is available the engine has been asked to play once, not twice. *)
Theorem already_loading_is_not_loaded_again :
  (forall fuel index change reshuffle item st,
      item_at (active st) index = Some item ->
      PlaylistItem.has item PlaylistItem.SpecialPlayBehaviour = true ->
      PlaylistItem.Url item = loading_async_ st ->
      exists st',
        PlayAt fuel index change reshuffle st = Ok st'
        /\ Engine.calls (engine_ st') = Engine.calls (engine_ st)
        /\ loads st' = loads st
        /\ loading_async_ st' = loading_async_ st)
  /\ (forall fuel change item st,
        stop_after_current (active st) = false ->
        current_item (active st) = Some item ->
        PlaylistItem.has item PlaylistItem.ContainsMultipleTracks = true ->
        PlaylistItem.Url item = loading_async_ st ->
        exists st',
          NextInternal fuel change st = Ok st'
          /\ Engine.calls (engine_ st') = Engine.calls (engine_ st)
          /\ loads st' = loads st
          /\ loading_async_ st' = loading_async_ st)
  /\ (forall fuel index change change' reshuffle reshuffle' item resolved st,
        item_at (active st) index = Some item ->
        PlaylistItem.has item PlaylistItem.SpecialPlayBehaviour = true ->
        PlaylistItem.Url item <> loading_async_ st ->
        PlaylistItem.StartLoading item (List.length (loads st))
        = PlaylistItem.WillLoadAsynchronously (PlaylistItem.Url item) ->
        exists st1 st2 st3,
          PlayAt fuel index change reshuffle st = Ok st1
          /\ PlayAt fuel index change' reshuffle' st1 = Ok st2
          /\ HandleSpecialLoad fuel
               (PlaylistItem.TrackAvailable (PlaylistItem.Url item) resolved)
               st2 = Ok st3
          /\ loads st1 = loads st ++ [ReqStartLoading (PlaylistItem.Url item)]
          /\ loads st2 = loads st1
          /\ Engine.calls (engine_ st2) = Engine.calls (engine_ st)
          /\ Engine.calls (engine_ st3)
             = Engine.calls (engine_ st) ++ [Engine.CPlay resolved change])
  /\ (forall fuel change change' item resolved st,
        stop_after_current (active st) = false ->
        current_item (active st) = Some item ->
        PlaylistItem.has item PlaylistItem.ContainsMultipleTracks = true ->
        PlaylistItem.Url item <> loading_async_ st ->
        PlaylistItem.LoadNext item (List.length (loads st))
        = PlaylistItem.WillLoadAsynchronously (PlaylistItem.Url item) ->
        exists st1 st2 st3,
          NextInternal fuel change st = Ok st1
          /\ NextInternal fuel change' st1 = Ok st2
          /\ HandleSpecialLoad fuel
               (PlaylistItem.TrackAvailable (PlaylistItem.Url item) resolved)
               st2 = Ok st3
          /\ loads st1 = loads st ++ [ReqLoadNext (PlaylistItem.Url item)]
          /\ loads st2 = loads st1
          /\ Engine.calls (engine_ st2) = Engine.calls (engine_ st)
          /\ Engine.calls (engine_ st3)
             = Engine.calls (engine_ st) ++ [Engine.CPlay resolved change]).
Proof.
  split; [| split; [| split]].
  - intros fuel index change reshuffle item st Hitem Hspecial Hurl.
    exists (moved_to index reshuffle item st).
    split; [apply PlayAt_already_loading; assumption |].
    destruct (moved_to_facts index reshuffle item st)
      as (_ & _ & Hc & Hl & Ht & _).
    auto.
  - intros fuel change item st Hstop Hcur Hmulti Hurl.
    eexists. split;
      [apply (NextInternal_already_loading fuel change item); assumption |].
    destruct change; repeat split.
  - intros fuel index change change' reshuffle reshuffle' item resolved st
           Hitem Hspecial Hurl Hanswer.
    pose proof (item_at_nonnegative _ _ _ Hitem) as Hpos.
    set (st1 := set_loading_async_ (PlaylistItem.Url item)
                  (snd (call_StartLoading item
                          (set_stream_change_type_ change
                             (moved_to index reshuffle item st))))).
    assert (Hitem1 : item_at (active st1) index = Some item)
      by (destruct reshuffle; exact Hitem).
    exists st1, (moved_to index reshuffle' item st1).
    eexists.
    split; [apply PlayAt_starts_async_load; assumption |].
    split; [apply PlayAt_already_loading; [assumption | assumption | reflexivity] |].
    split.
    + apply HandleSpecialLoad_TrackAvailable_valid.
      * destruct reshuffle'; cbn; lia.
      * destruct reshuffle'; exact Hitem1.
      * reflexivity.
    + split; [destruct reshuffle; reflexivity |].
      split; [destruct reshuffle'; reflexivity |].
      split; [destruct reshuffle, reshuffle'; reflexivity |].
      destruct reshuffle, reshuffle'; reflexivity.
  - intros fuel change change' item resolved st
           Hstop Hcur Hmulti Hurl Hanswer.
    set (st1 := set_loading_async_ (PlaylistItem.Url item)
                  (snd (call_LoadNext item
                          (set_stream_change_type_ change (skipped change st))))).
    assert (Hactive : active st1 = active st) by (destruct change; reflexivity).
    assert (Hcur' : current_index (active st) <> -1
                    /\ item_at (active st) (current_index (active st))
                       = Some item).
    { unfold current_item in Hcur.
      destruct (Z.eqb_spec (current_index (active st)) (-1));
        [discriminate | split; assumption]. }
    exists st1, (skipped change' st1). eexists.
    split; [apply NextInternal_starts_async_load; assumption |].
    split.
    { apply (NextInternal_already_loading fuel change' item).
      - rewrite Hactive. exact Hstop.
      - rewrite Hactive. exact Hcur.
      - exact Hmulti.
      - reflexivity. }
    split.
    { apply HandleSpecialLoad_TrackAvailable_valid.
      - replace (active (skipped change' st1)) with (active st)
          by (destruct change, change'; reflexivity).
        apply Hcur'.
      - replace (active (skipped change' st1)) with (active st)
          by (destruct change, change'; reflexivity).
        apply Hcur'.
      - reflexivity. }
    split; [destruct change; reflexivity |].
    split; [destruct change'; reflexivity |].
    split; [destruct change, change'; reflexivity |].
    destruct change, change'; reflexivity.
Qed.

End AskingTwice.

(** Twice [PlayAt(0)] on the sample radio, then its track arrives. *)
Lemma already_loading_is_not_loaded_again_witness :
  exists st1 st2 st3,
    PlayAt (nav := Sample.linear) 0 0 Engine.Manual false Sample.on_radio = Ok st1
    /\ PlayAt (nav := Sample.linear) 0 0 Engine.Manual false st1 = Ok st2
    /\ HandleSpecialLoad (nav := Sample.linear) 0
         (PlaylistItem.TrackAvailable Sample.url_radio Sample.url_resolved) st2
       = Ok st3
    /\ loads st1 = [ReqStartLoading Sample.url_radio]
    /\ loads st2 = loads st1
    /\ Engine.calls (engine_ st2) = []
    /\ Engine.calls (engine_ st3)
       = [Engine.CPlay Sample.url_resolved Engine.Manual].
Proof.
  refine (proj1 (proj2 (proj2
            (already_loading_is_not_loaded_again (nav := Sample.linear))))
            0%nat 0 Engine.Manual Engine.Manual false false Sample.radio_item
            Sample.url_resolved Sample.on_radio _ _ _ _).
  - reflexivity.
  - reflexivity.
  - discriminate.
  - reflexivity.
Defined.

(** C4, as stated, fails where the option of the guard is missing.  The
    sample container (only [ContainsMultipleTracks]) is being loaded
    asynchronously after [NextInternal], its locator is the async token,
    and two calls of [PlayAt] on it in a row make the engine play twice.
    The sample station (only [SpecialPlayBehaviour]) is being loaded
    asynchronously after [PlayAt], its locator is the async token, and two
    calls of [NextInternal] in a row make the engine play twice. *)
Lemma asking_twice_plays_twice :
  (exists st1 st2 st3,
      NextInternal (nav := Sample.linear) 0 Engine.Auto Sample.on_container
      = Ok st1
      /\ loading_async_ st1 = PlaylistItem.Url Sample.container_item
      /\ item_at (active st1) 0 = Some Sample.container_item
      /\ PlayAt (nav := Sample.linear) 0 0 Engine.Manual false st1 = Ok st2
      /\ PlayAt (nav := Sample.linear) 0 0 Engine.Manual false st2 = Ok st3
      /\ Engine.calls (engine_ st1) = []
      /\ Engine.calls (engine_ st3)
         = [Engine.CPlay Sample.url_radio Engine.Manual;
            Engine.CPlay Sample.url_radio Engine.Manual])
  /\ (exists st1 st2 st3,
        PlayAt (nav := Sample.linear) 0 0 Engine.First false Sample.on_station
        = Ok st1
        /\ loading_async_ st1 = PlaylistItem.Url Sample.station_item
        /\ current_item (active st1) = Some Sample.station_item
        /\ NextInternal (nav := Sample.linear) 0 Engine.Manual st1 = Ok st2
        /\ NextInternal (nav := Sample.linear) 0 Engine.Manual st2 = Ok st3
        /\ Engine.calls (engine_ st1) = []
        /\ Engine.calls (engine_ st3)
           = [Engine.CPlay Sample.url_file Engine.Manual;
              Engine.CPlay Sample.url_stream Engine.Manual]).
Proof.
  split; do 3 eexists;
    do 5 (split; [vm_compute; reflexivity |]);
    split; vm_compute; reflexivity.
Qed.

(** ** The async token *)

(** What each result that [HandleSpecialLoad] consumes does to the token:
    [WillLoadAsynchronously(original)] sets it to [original];
    [NoMoreTracks] empties it before [NextItem] runs; a [TrackAvailable]
    whose [original] is the locator of the item under the cursor empties
    it; a [TrackAvailable] that is stale leaves the player, token included,
    as it was.  [Stop] does not touch the token. *)
Lemma HandleSpecialLoad_and_the_token {nav : Navigation} :
  (forall fuel original st,
      HandleSpecialLoad fuel (PlaylistItem.WillLoadAsynchronously original) st
      = Ok (set_loading_async_ original st))
  /\ (forall fuel st,
        HandleSpecialLoad fuel PlaylistItem.NoMoreTracks st
        = NextItem fuel Engine.Auto (set_loading_async_ QUrl_empty st))
  /\ (forall fuel original resolved item st,
        current_index (active st) <> -1 ->
        item_at (active st) (current_index (active st)) = Some item ->
        PlaylistItem.Url item = original ->
        exists st',
          HandleSpecialLoad fuel
            (PlaylistItem.TrackAvailable original resolved) st = Ok st'
          /\ loading_async_ st' = QUrl_empty)
  /\ (forall fuel original resolved st,
        current_index (active st) = -1
        \/ (exists item,
              item_at (active st) (current_index (active st)) = Some item
              /\ PlaylistItem.Url item <> original) ->
        HandleSpecialLoad fuel
          (PlaylistItem.TrackAvailable original resolved) st = Ok st)
  /\ (forall st, loading_async_ (Stop st) = loading_async_ st).
Proof.
  split; [| split; [| split; [| split]]].
  - reflexivity.
  - reflexivity.
  - intros fuel original resolved item st Hidx Hitem Hurl.
    exists (play_resolved item resolved st).
    split; [apply HandleSpecialLoad_TrackAvailable_valid; assumption |].
    reflexivity.
  - intros fuel original resolved st.
    apply HandleSpecialLoad_TrackAvailable_stale.
  - reflexivity.
Qed.

(** C2.  A terminal result can be consumed and leave the token set, with
    nothing loading any more.  The sample radio starts loading
    asynchronously and the token is its locator; were the track to arrive
    now, the token would be emptied.  Instead [Previous] finds no previous
    row and stops, and the token stays; the track then arrives, is stale
    and is dropped, and the token stays again, with no current item left;
    a new [PlayAt] on the radio then finds it "already loading": it asks
    the item for no load and the engine for nothing. *)
Theorem token_outlives_the_load :
  exists st1 st2 st3 st4 arrived,
    PlayAt (nav := Sample.linear) 0 0 Engine.Manual false Sample.on_radio = Ok st1
    /\ loading_async_ st1 = Sample.url_radio
    /\ HandleSpecialLoad (nav := Sample.linear) 0
         (PlaylistItem.TrackAvailable Sample.url_radio Sample.url_resolved) st1
       = Ok arrived
    /\ loading_async_ arrived = QUrl_empty
    /\ Previous (nav := Sample.linear) 0 st1 = Ok st2
    /\ current_item (active st2) = None
    /\ current_item_ st2 = None
    /\ loading_async_ st2 = Sample.url_radio
    /\ HandleSpecialLoad (nav := Sample.linear) 0
         (PlaylistItem.TrackAvailable Sample.url_radio Sample.url_resolved) st2
       = Ok st3
    /\ current_item (active st3) = None
    /\ loading_async_ st3 = Sample.url_radio
    /\ loading_async_ st3 <> QUrl_empty
    /\ PlayAt (nav := Sample.linear) 0 0 Engine.Manual false st3 = Ok st4
    /\ Engine.calls (engine_ st4) = Engine.calls (engine_ st3)
    /\ Engine.calls (engine_ st4) = [Engine.CStop]
    /\ loads st4 = loads st1.
Proof.
  do 5 eexists.
  do 11 (split; [vm_compute; reflexivity |]).
  split; [vm_compute; intros E; discriminate E |].
  do 3 (split; [vm_compute; reflexivity |]).
  vm_compute; reflexivity.
Qed.

(** ** Fuel

    What a call returns does not depend on the fuel, once there is
    enough of it. *)

Section Fuel.

Context {nav : Navigation}.

Lemma NextItem_with_more f g change st o :
  (forall i c r s o', f i c r s = o' -> o' <> OutOfFuel -> g i c r s = o') ->
  NextItem_with f change st = o -> o <> OutOfFuel ->
  NextItem_with g change st = o.
Proof.
  intros Hfg. unfold NextItem_with.
  destruct (next_index (active st) =? -1); [auto | apply Hfg].
Qed.

Lemma HandleSpecialLoad_with_more f g result st o :
  (forall i c r s o', f i c r s = o' -> o' <> OutOfFuel -> g i c r s = o') ->
  HandleSpecialLoad_with f result st = o -> o <> OutOfFuel ->
  HandleSpecialLoad_with g result st = o.
Proof.
  intros Hfg. unfold HandleSpecialLoad_with.
  destruct result; [apply NextItem_with_more; exact Hfg | auto | auto].
Qed.

Lemma PlayAt_with_more f g index change reshuffle st o :
  (forall i c r s o', f i c r s = o' -> o' <> OutOfFuel -> g i c r s = o') ->
  PlayAt_with f index change reshuffle st = o -> o <> OutOfFuel ->
  PlayAt_with g index change reshuffle st = o.
Proof.
  intros Hfg. unfold PlayAt_with.
  cbn [current_item_ set_current_item_].
  destruct (current_item _) as [current |]; [| auto].
  destruct (PlaylistItem.has current PlaylistItem.SpecialPlayBehaviour);
    [| auto].
  destruct (QUrl_eqb _ _); [auto |].
  destruct (call_StartLoading _ _) as [result st1].
  apply HandleSpecialLoad_with_more. exact Hfg.
Qed.

Lemma PlayAt_more_fuel (fuel : nat) :
  forall index change reshuffle st o,
    PlayAt fuel index change reshuffle st = o -> o <> OutOfFuel ->
    PlayAt (S fuel) index change reshuffle st = o.
Proof.
  induction fuel as [| fuel IH]; intros index change reshuffle st o.
  - cbn [PlayAt]. apply PlayAt_with_more.
    intros i c r s o' <- Ho. congruence.
  - intros H Ho. cbn [PlayAt] in H |- *.
    revert H Ho. apply PlayAt_with_more. exact IH.
Qed.

End Fuel.

(** ** Relations that navigation respects *)

Section NavigationSteps.

Context {nav : Navigation}.

Variable R : Player -> Player -> Prop.

Hypothesis HR : step_closed R.

Local Ltac step :=
  first [ apply (closed_cursor R HR)
        | apply (closed_stop_after R HR) | apply (closed_item R HR)
        | apply (closed_token R HR) | apply (closed_change R HR)
        | apply (closed_play R HR) | apply (closed_stop R HR)
        | apply (closed_preload R HR) | apply (closed_scrobble R HR)
        | apply (closed_emit R HR) | apply (closed_start R HR)
        | apply (closed_next R HR) | apply (closed_refl R HR) ].

Local Ltac then_step := eapply (closed_trans R HR); [| solve [step]].

Lemma Stop_respects (st : Player) : R st (Stop st).
Proof.
  unfold Stop. cbv zeta. then_step. then_step. step.
Qed.

Lemma moving_respects (index : Z) (reshuffle : bool) (st : Player) :
  R st (on_playlist (set_current_index index)
          (if reshuffle then on_playlist (set_current_index (-1)) st else st)).
Proof.
  destruct reshuffle.
  - then_step. step.
  - step.
Qed.

Lemma NextItem_with_respects play_at change :
  (forall i c r st st', play_at i c r st = Ok st' -> R st st') ->
  forall st st', NextItem_with play_at change st = Ok st' -> R st st'.
Proof.
  intros Hp st st' Hrun. unfold NextItem_with in Hrun. cbv zeta in Hrun.
  destruct (next_index (active st) =? -1).
  - injection Hrun as <-.
    eapply (closed_trans R HR); [| apply Stop_respects].
    then_step. step.
  - exact (Hp _ _ _ _ _ Hrun).
Qed.

Lemma HandleSpecialLoad_with_respects play_at result :
  (forall i c r st st', play_at i c r st = Ok st' -> R st st') ->
  forall st st', HandleSpecialLoad_with play_at result st = Ok st' -> R st st'.
Proof.
  intros Hp st st' Hrun.
  destruct result as [| original media | original];
    unfold HandleSpecialLoad_with in Hrun; cbv zeta in Hrun.
  - eapply (closed_trans R HR);
      [| exact (NextItem_with_respects play_at Engine.Auto Hp _ _ Hrun)].
    step.
  - destruct (current_index (active st) =? -1);
      [injection Hrun as <-; step |].
    destruct (item_at (active st) (current_index (active st))) as [item |];
      [| injection Hrun as <-; step].
    destruct (negb (QUrl_eqb (PlaylistItem.Url item) original));
      injection Hrun as <-; [step |].
    then_step. then_step. step.
  - injection Hrun as <-. step.
Qed.

Lemma PlayAt_with_respects nested index change reshuffle :
  (forall i c r st st', nested i c r st = Ok st' -> R st st') ->
  forall st st',
    PlayAt_with nested index change reshuffle st = Ok st' -> R st st'.
Proof.
  intros Hn st st' Hrun. unfold PlayAt_with in Hrun. cbv zeta in Hrun.
  pose proof (moving_respects index reshuffle st) as Hmoved.
  set (moved := on_playlist (set_current_index index)
                  (if reshuffle then on_playlist (set_current_index (-1)) st
                   else st)) in *.
  cbn [current_item_ set_current_item_] in Hrun.
  destruct (current_item (active moved)) as [current |]; [| discriminate].
  assert (Hcur : R st (set_current_item_ (Some current) moved))
    by (eapply (closed_trans R HR); [exact Hmoved | step]).
  destruct (PlaylistItem.has current PlaylistItem.SpecialPlayBehaviour).
  - destruct (QUrl_eqb _ _); [injection Hrun as <-; exact Hcur |].
    destruct (call_StartLoading current _) as [result loading] eqn:Hload.
    eapply (closed_trans R HR);
      [| exact (HandleSpecialLoad_with_respects nested result Hn _ _ Hrun)].
    replace loading with (snd (call_StartLoading current
      (set_stream_change_type_ change (set_current_item_ (Some current) moved))))
      by (rewrite Hload; reflexivity).
    then_step. then_step. exact Hcur.
  - assert (Hplayed :
      R st (on_engine (Engine.Play (PlaylistItem.Url current) change)
              (set_loading_async_ QUrl_empty
                 (set_current_item_ (Some current) moved))))
      by (then_step; then_step; exact Hcur).
    cbn [lastfm_ on_engine set_loading_async_ set_current_item_] in Hrun.
    destruct (IsScrobblingEnabled _); injection Hrun as <-.
    + then_step. exact Hplayed.
    + exact Hplayed.
Qed.

Lemma PlayAt_respects (fuel : nat) :
  forall index change reshuffle st st',
    PlayAt fuel index change reshuffle st = Ok st' -> R st st'.
Proof.
  induction fuel as [| fuel IH]; intros index change reshuffle;
    cbn [PlayAt]; apply PlayAt_with_respects.
  - intros i c r st st' H. discriminate H.
  - exact IH.
Qed.

Lemma HandleSpecialLoad_respects (fuel : nat) result (st st' : Player) :
  HandleSpecialLoad fuel result st = Ok st' -> R st st'.
Proof.
  apply HandleSpecialLoad_with_respects. apply PlayAt_respects.
Qed.

Lemma NextItem_respects (fuel : nat) change (st st' : Player) :
  NextItem fuel change st = Ok st' -> R st st'.
Proof.
  apply NextItem_with_respects. apply PlayAt_respects.
Qed.

Lemma NextInternal_respects (fuel : nat) change (st st' : Player) :
  NextInternal fuel change st = Ok st' -> R st st'.
Proof.
  intros Hrun. unfold NextInternal in Hrun. cbv zeta in Hrun.
  assert (Hsk : R st (skipped change st))
    by (destruct change; step).
  fold (skipped change st) in Hrun.
  set (sk := skipped change st) in *.
  destruct (stop_after_current (active sk)).
  { injection Hrun as <-.
    eapply (closed_trans R HR); [| apply Stop_respects].
    then_step. exact Hsk. }
  destruct (current_item (active sk)) as [current |].
  - destruct (PlaylistItem.has current PlaylistItem.ContainsMultipleTracks).
    + destruct (QUrl_eqb _ _); [injection Hrun as <-; exact Hsk |].
      destruct (call_LoadNext current _) as [result loading] eqn:Hload.
      eapply (closed_trans R HR);
        [| exact (HandleSpecialLoad_respects fuel result _ _ Hrun)].
      replace loading with (snd (call_LoadNext current
        (set_stream_change_type_ change sk)))
        by (rewrite Hload; reflexivity).
      then_step. then_step. exact Hsk.
    + eapply (closed_trans R HR);
        [exact Hsk | exact (NextItem_respects fuel change _ _ Hrun)].
  - eapply (closed_trans R HR);
      [exact Hsk | exact (NextItem_respects fuel change _ _ Hrun)].
Qed.

Lemma TrackEnded_respects (fuel : nat) (st st' : Player) :
  TrackEnded fuel st = Ok st' -> R st st'.
Proof.
  intros Hrun. unfold TrackEnded in Hrun. cbv zeta in Hrun.
  destruct (stop_after_current (active st)).
  - injection Hrun as <-.
    eapply (closed_trans R HR); [| apply Stop_respects]. step.
  - exact (NextInternal_respects fuel Engine.Auto _ _ Hrun).
Qed.

Lemma Previous_respects (fuel : nat) (st st' : Player) :
  Previous fuel st = Ok st' -> R st st'.
Proof.
  intros Hrun. unfold Previous in Hrun. cbv zeta in Hrun.
  destruct (previous_index (active st) =? -1).
  - injection Hrun as <-.
    eapply (closed_trans R HR); [| apply Stop_respects]. step.
  - eapply (closed_trans R HR);
      [| exact (PlayAt_respects fuel _ _ _ _ _ Hrun)].
    step.
Qed.

Lemma TrackAboutToEnd_respects (fuel : nat) (st st' : Player) :
  TrackAboutToEnd fuel st = Ok st' -> R st st'.
Proof.
  intros Hrun. unfold TrackAboutToEnd in Hrun. cbv zeta in Hrun.
  destruct (Engine.is_autocrossfade_enabled (engine_ st));
    [exact (NextInternal_respects fuel Engine.Auto _ _ Hrun) |].
  destruct (current_item_ st) as [current |]; [| discriminate].
  destruct (PlaylistItem.has current PlaylistItem.ContainsMultipleTracks);
    [injection Hrun as <-; step |].
  destruct (next_index (active st) =? -1); [injection Hrun as <-; step |].
  destruct (item_at (active st) (next_index (active st))) as [item |];
    [| injection Hrun as <-; step].
  destruct (PlaylistItem.has item PlaylistItem.ContainsMultipleTracks);
    [| injection Hrun as <-; step].
  destruct (call_LoadNext item st) as [result loading] eqn:Hload.
  assert (Hl : R st loading).
  { replace loading with (snd (call_LoadNext item st))
      by (rewrite Hload; reflexivity).
    step. }
  destruct result; injection Hrun as <-.
  - exact Hl.
  - then_step. exact Hl.
  - then_step. exact Hl.
Qed.

End NavigationSteps.

(** ** Navigation leaves the volume alone *)

Lemma only_navigated_closed : step_closed only_navigated.
Proof.
  assert (Hsame : forall st st' c,
    Engine.volume (engine_ st') = Engine.volume (engine_ st) ->
    settings_volume st' = settings_volume st ->
    volume_before_mute_ st' = volume_before_mute_ st ->
    Engine.calls (engine_ st') = Engine.calls (engine_ st) ++ c ->
    forallb navigation_call c = true ->
    only_navigated st st').
  { intros st st' c H1 H2 H3 H7 H8.
    refine (conj H1 (conj H2 (conj H3 _))).
    exists c. split; assumption. }
  constructor.
  - intros st. apply (Hsame st st []); try reflexivity.
    symmetry. apply app_nil_r.
  - intros a b c (A1 & A2 & A3 & la & A7 & A8)
                 (B1 & B2 & B3 & lb & B7 & B8).
    apply (Hsame a c (la ++ lb)); try congruence.
    + rewrite B7, A7, app_assoc. reflexivity.
    + rewrite forallb_app, A8, B8. reflexivity.
  - intros i st. apply (Hsame _ _ []); try reflexivity.
    symmetry. apply app_nil_r.
  - intros r st. apply (Hsame _ _ []); try reflexivity.
    symmetry. apply app_nil_r.
  - intros x st. apply (Hsame _ _ []); try reflexivity.
    symmetry. apply app_nil_r.
  - intros u st. apply (Hsame _ _ []); try reflexivity.
    symmetry. apply app_nil_r.
  - intros c st. apply (Hsame _ _ []); try reflexivity.
    symmetry. apply app_nil_r.
  - intros u c st. apply (Hsame _ _ [Engine.CPlay u c]); reflexivity.
  - intros st. apply (Hsame _ _ [Engine.CStop]); reflexivity.
  - intros u st. apply (Hsame _ _ [Engine.CStartPreloading u]); reflexivity.
  - intros s st. apply (Hsame _ _ []); try reflexivity.
    symmetry. apply app_nil_r.
  - intros s st. apply (Hsame _ _ []); try reflexivity.
    symmetry. apply app_nil_r.
  - intros item st. apply (Hsame _ _ []); try reflexivity.
    symmetry. apply app_nil_r.
  - intros item st. apply (Hsame _ _ []); try reflexivity.
    symmetry. apply app_nil_r.
Qed.

Lemma handle_navigation_respects {nav : Navigation}
    (R : Player -> Player -> Prop) (HR : step_closed R)
    (fuel : nat) (ev : event) (st st' : Player) :
  navigates ev = true -> handle fuel ev st = Ok st' -> R st st'.
Proof.
  intros Hnav Hrun. destruct ev; try discriminate Hnav; cbn [handle] in Hrun.
  - exact (PlayAt_respects R HR fuel _ _ _ _ _ Hrun).
  - exact (NextInternal_respects R HR fuel Engine.Manual _ _ Hrun).
  - exact (Previous_respects R HR fuel _ _ Hrun).
  - injection Hrun as <-. apply (Stop_respects R HR).
  - exact (TrackAboutToEnd_respects R HR fuel _ _ Hrun).
  - exact (TrackEnded_respects R HR fuel _ _ Hrun).
  - exact (HandleSpecialLoad_respects R HR fuel _ _ _ Hrun).
Qed.

(** X1.  Whatever sequence of [PlayAt], [Next], [Previous], [Stop],
    [TrackAboutToEnd], [TrackEnded] and special-load results the player
    comes through, it comes out with the volume of the engine, the
    persisted volume and the volume cached for unmuting as they were, and
    having asked the engine only to play, stop or preload: never to pause,
    unpause, seek or set the volume. *)
Theorem navigation_leaves_the_volume_alone {nav : Navigation}
    (fuel : nat) (evs : list event) (st st' : Player)
    (Hnav : forallb navigates evs = true)
    (Hrun : handle_all fuel evs st = Ok st') :
  only_navigated st st'.
Proof.
  revert st Hnav Hrun.
  induction evs as [| ev evs IH]; intros st Hnav Hrun; cbn [handle_all] in Hrun.
  - injection Hrun as <-. apply (closed_refl _ only_navigated_closed).
  - cbn [forallb] in Hnav. apply andb_true_iff in Hnav as [Hev Hevs].
    destruct (handle fuel ev st) as [mid | |] eqn:Hmid; try discriminate.
    apply (closed_trans _ only_navigated_closed st mid st').
    + exact (handle_navigation_respects _ only_navigated_closed
               fuel ev st mid Hev Hmid).
    + exact (IH mid Hevs Hrun).
Qed.

(** A run through the sample playlist: play the file, skip to the radio,
    let the track end, go back. *)
Lemma navigation_leaves_the_volume_alone_witness :
  exists st',
    handle_all (nav := Sample.linear) 0
      [EvPlayAt 0 Engine.Manual false; EvNext; EvTrackEnded; EvPrevious]
      Sample.idle = Ok st'
    /\ only_navigated Sample.idle st'.
Proof.
  eexists. split.
  - vm_compute. reflexivity.
  - refine (navigation_leaves_the_volume_alone (nav := Sample.linear) 0
              [EvPlayAt 0 Engine.Manual false; EvNext; EvTrackEnded; EvPrevious]
              Sample.idle _ _ _).
    + reflexivity.
    + vm_compute. reflexivity.
Defined.

(** ** [PlayAt] on an ordinary row, and on no row *)

Section PlayAtRows.

Context {nav : Navigation}.

Lemma PlayAt_plain_runs (fuel : nat) (index : Z)
    (change : Engine.TrackChangeType) (reshuffle : bool)
    (item : PlaylistItem.t) (st : Player) :
  item_at (active st) index = Some item ->
  PlaylistItem.has item PlaylistItem.SpecialPlayBehaviour = false ->
  PlayAt fuel index change reshuffle st
  = Ok (plays index change reshuffle item st).
Proof.
  intros Hitem Hplain.
  destruct fuel; cbn [PlayAt]; unfold PlayAt_with, plays;
    rewrite (PlayAt_current_item _ _ _ _ Hitem);
    cbn [moved_to current_item_ set_current_item_]; rewrite Hplain;
    destruct reshuffle;
    cbn [lastfm_ moved_to on_engine set_loading_async_ set_current_item_
         on_playlist];
    destruct (IsScrobblingEnabled (lastfm_ st)); reflexivity.
Qed.

Lemma plays_facts (index : Z) (change : Engine.TrackChangeType)
    (reshuffle : bool) (item : PlaylistItem.t) (st : Player) :
  let st' := plays index change reshuffle item st in
  current_index (active st') = index
  /\ index_history (active st')
     = index :: (if reshuffle then [-1] else []) ++ index_history (active st)
  /\ current_item_ st' = Some item
  /\ loading_async_ st' = QUrl_empty
  /\ Engine.calls (engine_ st')
     = Engine.calls (engine_ st)
       ++ [Engine.CPlay (PlaylistItem.Url item) change]
  /\ loads st' = loads st
  /\ emitted st' = emitted st
  /\ now_playing (lastfm_ st')
     = now_playing (lastfm_ st)
       ++ (if IsScrobblingEnabled (lastfm_ st)
           then [PlaylistItem.Metadata item] else [])
  /\ stream_change_type_ st' = stream_change_type_ st
  /\ items (active st') = items (active st).
Proof.
  unfold plays. cbv zeta.
  destruct (IsScrobblingEnabled (lastfm_ st)) eqn:Hscrobble;
    destruct reshuffle; cbn; rewrite ?app_nil_r; repeat split.
Qed.

(** X2.  [PlayAt] on a row whose item has no [SpecialPlayBehaviour]
    returns with the cursor on the row (after a reset to -1 when
    reshuffling), that item as the current item and the async token empty,
    having asked the engine exactly to play the locator of the item with
    the change type given, having asked no item to load and emitted no
    signal; the scrobbler is told the metadata of the item exactly when
    scrobbling is enabled. *)
Theorem PlayAt_plain_item (fuel : nat) (index : Z)
    (change : Engine.TrackChangeType) (reshuffle : bool)
    (item : PlaylistItem.t) (st : Player)
    (Hitem : item_at (active st) index = Some item)
    (Hplain : PlaylistItem.has item PlaylistItem.SpecialPlayBehaviour = false) :
  exists st',
    PlayAt fuel index change reshuffle st = Ok st'
    /\ current_index (active st') = index
    /\ index_history (active st')
       = index :: (if reshuffle then [-1] else []) ++ index_history (active st)
    /\ current_item_ st' = Some item
    /\ loading_async_ st' = QUrl_empty
    /\ Engine.calls (engine_ st')
       = Engine.calls (engine_ st)
         ++ [Engine.CPlay (PlaylistItem.Url item) change]
    /\ loads st' = loads st
    /\ emitted st' = emitted st
    /\ now_playing (lastfm_ st')
       = now_playing (lastfm_ st)
         ++ (if IsScrobblingEnabled (lastfm_ st)
             then [PlaylistItem.Metadata item] else []).
Proof.
  exists (plays index change reshuffle item st).
  split; [apply PlayAt_plain_runs; assumption |].
  destruct (plays_facts index change reshuffle item st)
    as (A & B & C & D & E & F & G & H & _).
  auto 10.
Qed.

(** X3.  [PlayAt] on -1, or on an index that names no row, does not
    return: after moving the cursor there it dereferences the null current
    item, whatever the fuel. *)
Theorem PlayAt_no_row (fuel : nat) (index : Z)
    (change : Engine.TrackChangeType) (reshuffle : bool) (st : Player)
    (Hnone : index = -1 \/ item_at (active st) index = None) :
  PlayAt fuel index change reshuffle st = NullDeref.
Proof.
  assert (Hcur : current_item
            (active (on_playlist (set_current_index index)
                       (if reshuffle
                        then on_playlist (set_current_index (-1)) st
                        else st))) = None).
  { unfold current_item.
    cbn [active on_playlist set_current_index current_index].
    destruct (Z.eqb_spec index (-1)) as [E | E]; [reflexivity |].
    destruct Hnone as [H | H]; [contradiction |].
    destruct reshuffle; exact H. }
  destruct fuel; cbn [PlayAt]; unfold PlayAt_with; cbv zeta;
    cbn [current_item_ set_current_item_]; rewrite Hcur; reflexivity.
Qed.

End PlayAtRows.

(** [PlayAt(0)] on the file of the sample playlist. *)
Lemma PlayAt_plain_item_witness :
  exists st',
    PlayAt (nav := Sample.linear) 0 0 Engine.Manual true Sample.idle = Ok st'
    /\ current_index (active st') = 0
    /\ index_history (active st') = [0; -1]
    /\ current_item_ st' = Some Sample.file_item
    /\ loading_async_ st' = QUrl_empty
    /\ Engine.calls (engine_ st')
       = [Engine.CPlay Sample.url_file Engine.Manual]
    /\ loads st' = []
    /\ emitted st' = []
    /\ now_playing (lastfm_ st') = [].
Proof.
  refine (PlayAt_plain_item (nav := Sample.linear) 0 0 Engine.Manual true
            Sample.file_item Sample.idle _ _); reflexivity.
Defined.

(** [PlayAt(7)] on the sample playlist of two rows. *)
Lemma PlayAt_no_row_witness :
  PlayAt (nav := Sample.linear) 3 7 Engine.Manual false Sample.idle = NullDeref.
Proof.
  refine (PlayAt_no_row (nav := Sample.linear) 3 7 Engine.Manual false
            Sample.idle _).
  right. reflexivity.
Defined.

(** ** Signals of navigation *)

Section NavigationSignals.

Context {nav : Navigation}.

Lemma Stop_stopped (st : Player) : stopped (Stop st).
Proof.
  split; [reflexivity | split; [reflexivity |]].
  exists (Engine.calls (engine_ st)). reflexivity.
Qed.

Lemma NextItem_with_announces play_at change :
  (forall i c r st st',
      play_at i c r st = Ok st' ->
      announces_at_most_the_end (emitted st) st') ->
  forall st st',
    NextItem_with play_at change st = Ok st' ->
    announces_at_most_the_end (emitted st) st'.
Proof.
  intros Hp st st' Hrun. unfold NextItem_with in Hrun. cbv zeta in Hrun.
  destruct (next_index (active st) =? -1).
  - injection Hrun as <-. right. split; [reflexivity | apply Stop_stopped].
  - exact (Hp _ _ _ _ _ Hrun).
Qed.

Lemma HandleSpecialLoad_with_announces play_at result :
  (forall i c r st st',
      play_at i c r st = Ok st' ->
      announces_at_most_the_end (emitted st) st') ->
  forall st st',
    HandleSpecialLoad_with play_at result st = Ok st' ->
    announces_at_most_the_end (emitted st) st'.
Proof.
  intros Hp st st' Hrun.
  destruct result as [| original media | original];
    unfold HandleSpecialLoad_with in Hrun; cbv zeta in Hrun.
  - exact (NextItem_with_announces play_at Engine.Auto Hp _ _ Hrun).
  - destruct (current_index (active st) =? -1);
      [injection Hrun as <-; left; reflexivity |].
    destruct (item_at (active st) (current_index (active st))) as [item |];
      [| injection Hrun as <-; left; reflexivity].
    destruct (negb (QUrl_eqb (PlaylistItem.Url item) original));
      injection Hrun as <-; left; reflexivity.
  - injection Hrun as <-. left. reflexivity.
Qed.

Lemma PlayAt_with_announces nested index change reshuffle :
  (forall i c r st st',
      nested i c r st = Ok st' ->
      announces_at_most_the_end (emitted st) st') ->
  forall st st',
    PlayAt_with nested index change reshuffle st = Ok st' ->
    announces_at_most_the_end (emitted st) st'.
Proof.
  intros Hn st st' Hrun. unfold PlayAt_with in Hrun. cbv zeta in Hrun.
  set (moved := on_playlist (set_current_index index)
                  (if reshuffle then on_playlist (set_current_index (-1)) st
                   else st)) in *.
  assert (Hem : emitted moved = emitted st) by (destruct reshuffle; reflexivity).
  cbn [current_item_ set_current_item_] in Hrun.
  destruct (current_item (active moved)) as [current |]; [| discriminate].
  destruct (PlaylistItem.has current PlaylistItem.SpecialPlayBehaviour).
  - destruct (QUrl_eqb _ _); [injection Hrun as <-; left; exact Hem |].
    unfold call_StartLoading in Hrun.
    apply (HandleSpecialLoad_with_announces nested _ Hn) in Hrun.
    cbn [emitted set_stream_change_type_ set_current_item_] in Hrun.
    rewrite Hem in Hrun. exact Hrun.
  - cbn [lastfm_ on_engine set_loading_async_ set_current_item_] in Hrun.
    destruct (IsScrobblingEnabled _); injection Hrun as <-; left; exact Hem.
Qed.

Lemma PlayAt_announces (fuel : nat) :
  forall index change reshuffle st st',
    PlayAt fuel index change reshuffle st = Ok st' ->
    announces_at_most_the_end (emitted st) st'.
Proof.
  induction fuel as [| fuel IH]; intros index change reshuffle;
    cbn [PlayAt]; apply PlayAt_with_announces.
  - intros i c r st st' H. discriminate H.
  - exact IH.
Qed.

Lemma NextInternal_announces (fuel : nat) change (st st' : Player) :
  NextInternal fuel change st = Ok st' ->
  announces_at_most_the_end (emitted (skipped change st)) st'.
Proof.
  intros Hrun. unfold NextInternal in Hrun. cbv zeta in Hrun.
  fold (skipped change st) in Hrun.
  set (sk := skipped change st) in *.
  destruct (stop_after_current (active sk)).
  { injection Hrun as <-. left. reflexivity. }
  destruct (current_item (active sk)) as [current |].
  - destruct (PlaylistItem.has current PlaylistItem.ContainsMultipleTracks).
    + destruct (QUrl_eqb _ _); [injection Hrun as <-; left; reflexivity |].
      unfold call_LoadNext, HandleSpecialLoad in Hrun.
      exact (HandleSpecialLoad_with_announces _ _ (PlayAt_announces fuel)
               _ _ Hrun).
    + exact (NextItem_with_announces _ change (PlayAt_announces fuel)
               _ _ Hrun).
  - exact (NextItem_with_announces _ change (PlayAt_announces fuel) _ _ Hrun).
Qed.

(** X4.  [PlayAt], [Previous], [TrackEnded] and the handling of a special
    load emit no signal, or emit [PlaylistFinished] and nothing else; when
    they emit it the player has stopped: the cursor is at -1, there is no
    current item, and the last thing the engine was asked is to stop. *)
Theorem PlaylistFinished_comes_with_the_stop (fuel : nat) (st st' : Player) :
  (forall index change reshuffle,
      PlayAt fuel index change reshuffle st = Ok st' ->
      announces_at_most_the_end (emitted st) st')
  /\ (Previous fuel st = Ok st' ->
      announces_at_most_the_end (emitted st) st')
  /\ (TrackEnded fuel st = Ok st' ->
      announces_at_most_the_end (emitted st) st')
  /\ (forall result,
        HandleSpecialLoad fuel result st = Ok st' ->
        announces_at_most_the_end (emitted st) st').
Proof.
  split; [| split; [| split]].
  - intros index change reshuffle. apply PlayAt_announces.
  - intros Hrun. unfold Previous in Hrun. cbv zeta in Hrun.
    destruct (previous_index (active st) =? -1).
    + injection Hrun as <-. left. reflexivity.
    + exact (PlayAt_announces fuel _ _ _ _ _ Hrun).
  - intros Hrun. unfold TrackEnded in Hrun. cbv zeta in Hrun.
    destruct (stop_after_current (active st)).
    + injection Hrun as <-. left. reflexivity.
    + exact (NextInternal_announces fuel Engine.Auto _ _ Hrun).
  - intros result.
    apply HandleSpecialLoad_with_announces. apply PlayAt_announces.
Qed.

(** X5.  Whenever a call of [Next] returns, the signals it has emitted
    are [TrackSkipped] with the item the player held as current when it
    was called, and after it nothing, or [PlaylistFinished] alone, and
    then the player has stopped.  (Of a call that does not return, for a
    null item or an endless nesting of [PlayAt], this says nothing.) *)
Theorem Next_announces_the_skipped_item (fuel : nat) (st st' : Player)
    (Hrun : Next fuel st = Ok st') :
  announces_at_most_the_end
    (emitted st ++ [SigTrackSkipped (current_item_ st)]) st'.
Proof.
  exact (NextInternal_announces fuel Engine.Manual st st' Hrun).
Qed.

End NavigationSignals.

(** [Next] on the last row of the sample playlist. *)
Lemma Next_announces_the_skipped_item_witness :
  exists st',
    Next (nav := Sample.linear) 0 Sample.on_stream = Ok st'
    /\ announces_at_most_the_end
         (emitted Sample.on_stream
          ++ [SigTrackSkipped (current_item_ Sample.on_stream)]) st'
    /\ emitted st' = [SigTrackSkipped None; SigPlaylistFinished].
Proof.
  eexists. split; [vm_compute; reflexivity |]. split.
  - refine (Next_announces_the_skipped_item (nav := Sample.linear) 0
              Sample.on_stream _ _).
    vm_compute. reflexivity.
  - reflexivity.
Defined.

(** [Previous] on the only row of a sample playlist. *)
Lemma PlaylistFinished_comes_with_the_stop_witness :
  exists st',
    Previous (nav := Sample.linear) 0 Sample.on_stream = Ok st'
    /\ announces_at_most_the_end (emitted Sample.on_stream) st'.
Proof.
  eexists. split; [vm_compute; reflexivity |].
  refine (proj1 (proj2 (PlaylistFinished_comes_with_the_stop
                          (nav := Sample.linear) 0 Sample.on_stream _)) _).
  vm_compute. reflexivity.
Defined.

(** ** The end of a track, and going back *)

Section EndOfTrack.

Context {nav : Navigation}.

(** X6.  [TrackEnded] is [NextInternal(Engine::Auto)]: the stop-after
    check it makes first is the one [NextInternal] makes, and
    [NextInternal] announces no skipped track for an automatic change. *)
Theorem TrackEnded_is_NextInternal_Auto (fuel : nat) (st : Player) :
  TrackEnded fuel st = NextInternal fuel Engine.Auto st.
Proof.
  unfold TrackEnded, NextInternal. cbv zeta.
  destruct (stop_after_current (active st)); reflexivity.
Qed.

(** X7.  [NextInternal] with the stop-after marker on the current row
    clears the marker and stops instead of advancing: the cursor goes to
    -1, the current item is dropped, the engine is asked to stop and
    nothing else, no item is asked to load, and the async token is left as
    it was; a manual change still announces the skipped item first. *)
Theorem NextInternal_stops_after_current (fuel : nat)
    (change : Engine.TrackChangeType) (st : Player)
    (Hmarker : stop_after_current (active st) = true) :
  exists st',
    NextInternal fuel change st = Ok st'
    /\ stop_after (active st') = -1
    /\ current_index (active st') = -1
    /\ current_item_ st' = None
    /\ Engine.calls (engine_ st') = Engine.calls (engine_ st) ++ [Engine.CStop]
    /\ loads st' = loads st
    /\ loading_async_ st' = loading_async_ st
    /\ emitted st'
       = emitted st ++ match change with
                       | Engine.Manual => [SigTrackSkipped (current_item_ st)]
                       | _ => []
                       end.
Proof.
  unfold NextInternal. cbv zeta.
  replace (stop_after_current
             (active match change with
                     | Engine.Manual =>
                         emit (SigTrackSkipped (current_item_ st)) st
                     | _ => st
                     end)) with true
    by (destruct change; symmetry; exact Hmarker).
  eexists. split; [reflexivity |].
  destruct change; cbn; rewrite ?app_nil_r; repeat split.
Qed.

(** X8.  [Previous] always applies the previous index to the cursor.
    When there is none it stops: the cursor is set to -1 twice, the
    current item is dropped and the engine is asked to stop, without any
    signal ([PlaylistFinished] is for [NextItem]) and without touching the
    async token.  When the previous row holds an item without
    [SpecialPlayBehaviour] the cursor is set to the row twice and the
    engine plays the item as a manual change, without [TrackSkipped]. *)
Theorem Previous_stops_or_plays (fuel : nat) (st : Player) :
  (previous_index (active st) = -1 ->
   exists st',
     Previous fuel st = Ok st'
     /\ index_history (active st') = -1 :: -1 :: index_history (active st)
     /\ current_index (active st') = -1
     /\ current_item_ st' = None
     /\ Engine.calls (engine_ st') = Engine.calls (engine_ st) ++ [Engine.CStop]
     /\ emitted st' = emitted st
     /\ loading_async_ st' = loading_async_ st)
  /\ (forall item,
        item_at (active st) (previous_index (active st)) = Some item ->
        PlaylistItem.has item PlaylistItem.SpecialPlayBehaviour = false ->
        exists st',
          Previous fuel st = Ok st'
          /\ index_history (active st')
             = previous_index (active st) :: previous_index (active st)
               :: index_history (active st)
          /\ current_item_ st' = Some item
          /\ Engine.calls (engine_ st')
             = Engine.calls (engine_ st)
               ++ [Engine.CPlay (PlaylistItem.Url item) Engine.Manual]
          /\ emitted st' = emitted st
          /\ loading_async_ st' = QUrl_empty).
Proof.
  split.
  - intros Hnone. unfold Previous. cbv zeta. rewrite Hnone. simpl (-1 =? -1).
    eexists. split; [reflexivity |]. cbn. repeat split.
  - intros item Hitem Hplain.
    pose proof (item_at_nonnegative _ _ _ Hitem) as Hpos.
    unfold Previous. cbv zeta.
    destruct (Z.eqb_spec (previous_index (active st)) (-1)) as [E | E];
      [lia |].
    rewrite (PlayAt_plain_runs fuel _ Engine.Manual false item
               (on_playlist (set_current_index (previous_index (active st))) st)
               Hitem Hplain).
    eexists. split; [reflexivity |].
    destruct (plays_facts (previous_index (active st)) Engine.Manual false item
                (on_playlist (set_current_index (previous_index (active st)))
                   st))
      as (_ & B & C & D & Hcalls & _ & G & _).
    auto 10.
Qed.

End EndOfTrack.

(** The sample player with the stop-after marker on its row. *)
Lemma NextInternal_stops_after_current_witness :
  exists st',
    NextInternal (nav := Sample.linear) 0 Engine.Manual Scenes.last_wish = Ok st'
    /\ stop_after (active st') = -1
    /\ current_index (active st') = -1
    /\ current_item_ st' = None
    /\ Engine.calls (engine_ st') = [Engine.CStop]
    /\ loads st' = []
    /\ loading_async_ st' = QUrl_empty
    /\ emitted st' = [SigTrackSkipped (Some Sample.file_item)].
Proof.
  refine (NextInternal_stops_after_current (nav := Sample.linear) 0
            Engine.Manual Scenes.last_wish _).
  reflexivity.
Defined.

(** [Previous] on the first row, and on the second row, of the sample
    playlist. *)
Lemma Previous_stops_or_plays_witness :
  (exists st',
      Previous (nav := Sample.linear) 0 Scenes.last_wish = Ok st'
      /\ index_history (active st') = [-1; -1]
      /\ current_index (active st') = -1
      /\ current_item_ st' = None
      /\ Engine.calls (engine_ st') = [Engine.CStop]
      /\ emitted st' = []
      /\ loading_async_ st' = QUrl_empty)
  /\ (exists st',
        Previous (nav := Sample.linear) 0 Sample.radio_loading = Ok st'
        /\ index_history (active st') = [0; 0]
        /\ current_item_ st' = Some Sample.file_item
        /\ Engine.calls (engine_ st')
           = [Engine.CPlay Sample.url_file Engine.Manual]
        /\ emitted st' = []
        /\ loading_async_ st' = QUrl_empty).
Proof.
  split.
  - refine (proj1 (Previous_stops_or_plays (nav := Sample.linear) 0
                     Scenes.last_wish) _).
    reflexivity.
  - refine (proj2 (Previous_stops_or_plays (nav := Sample.linear) 0
                     Sample.radio_loading) Sample.file_item _ _);
      reflexivity.
Defined.

(** ** Moving on *)

Section MovingOn.

Context {nav : Navigation}.

(** X9.  [NextInternal] with no stop-after marker pending, a current item
    that is no multi-track container, and a next row holding an item
    without [SpecialPlayBehaviour], moves the cursor to that row and asks
    the engine exactly to play that item with the change type it was
    given; a manual change announces the skipped item and nothing else is
    emitted. *)
Theorem NextInternal_plays_the_next_row (fuel : nat)
    (change : Engine.TrackChangeType) (st : Player) (next : PlaylistItem.t)
    (Hmarker : stop_after_current (active st) = false)
    (Hsingle : forall current,
        current_item (active st) = Some current ->
        PlaylistItem.has current PlaylistItem.ContainsMultipleTracks = false)
    (Hnext : item_at (active st) (next_index (active st)) = Some next)
    (Hplain : PlaylistItem.has next PlaylistItem.SpecialPlayBehaviour = false) :
  exists st',
    NextInternal fuel change st = Ok st'
    /\ current_index (active st') = next_index (active st)
    /\ current_item_ st' = Some next
    /\ loading_async_ st' = QUrl_empty
    /\ Engine.calls (engine_ st')
       = Engine.calls (engine_ st)
         ++ [Engine.CPlay (PlaylistItem.Url next) change]
    /\ loads st' = loads st
    /\ emitted st'
       = emitted st ++ match change with
                       | Engine.Manual => [SigTrackSkipped (current_item_ st)]
                       | _ => []
                       end.
Proof.
  pose proof (item_at_nonnegative _ _ _ Hnext) as Hpos.
  exists (plays (next_index (active st)) change false next (skipped change st)).
  assert (Hactive : active (skipped change st) = active st)
    by (destruct change; reflexivity).
  split.
  - unfold NextInternal. cbv zeta. fold (skipped change st).
    rewrite Hactive, Hmarker.
    assert (Hadvance : NextItem fuel change (skipped change st)
              = Ok (plays (next_index (active st)) change false next
                      (skipped change st))).
    { unfold NextItem, NextItem_with. cbv zeta. rewrite Hactive.
      destruct (Z.eqb_spec (next_index (active st)) (-1)); [lia |].
      apply PlayAt_plain_runs; [rewrite Hactive; exact Hnext | exact Hplain]. }
    destruct (current_item (active st)) as [current |] eqn:Hcur;
      [| exact Hadvance].
    rewrite (Hsingle current eq_refl). exact Hadvance.
  - destruct (plays_facts (next_index (active st)) change false next
                (skipped change st))
      as (A & _ & C & D & Hcalls & F & G & _).
    rewrite A, C, D, Hcalls, F, G.
    destruct change; cbn; rewrite ?app_nil_r; repeat split.
Qed.

(** X10.  When an item has no more tracks, [HandleSpecialLoad] moves on
    as an automatic change: with a next row holding an item without
    [SpecialPlayBehaviour], the engine is asked to play it with
    [Engine::Auto], whatever change type was recorded for the load (the
    record stays as it was), and the async token is emptied. *)
Theorem NoMoreTracks_moves_on_as_Auto (fuel : nat) (st : Player)
    (next : PlaylistItem.t)
    (Hnext : item_at (active st) (next_index (active st)) = Some next)
    (Hplain : PlaylistItem.has next PlaylistItem.SpecialPlayBehaviour = false) :
  exists st',
    HandleSpecialLoad fuel PlaylistItem.NoMoreTracks st = Ok st'
    /\ Engine.calls (engine_ st')
       = Engine.calls (engine_ st)
         ++ [Engine.CPlay (PlaylistItem.Url next) Engine.Auto]
    /\ stream_change_type_ st' = stream_change_type_ st
    /\ current_index (active st') = next_index (active st)
    /\ current_item_ st' = Some next
    /\ loading_async_ st' = QUrl_empty.
Proof.
  pose proof (item_at_nonnegative _ _ _ Hnext) as Hpos.
  exists (plays (next_index (active st)) Engine.Auto false next
            (set_loading_async_ QUrl_empty st)).
  split.
  - unfold HandleSpecialLoad, HandleSpecialLoad_with, NextItem_with. cbv zeta.
    cbn [active set_loading_async_].
    destruct (Z.eqb_spec (next_index (active st)) (-1)); [lia |].
    apply PlayAt_plain_runs; assumption.
  - destruct (plays_facts (next_index (active st)) Engine.Auto false next
                (set_loading_async_ QUrl_empty st))
      as (A & _ & C & D & Hcalls & _ & _ & _ & I & _).
    auto 10.
Qed.

(** X11.  The nesting of [PlayAt] in [HandleSpecialLoad] and [NextItem]
    has no bound of its own.  When the playlist keeps offering the row [k],
    and the item there has [SpecialPlayBehaviour], a locator that is not
    the empty one, and no more tracks whenever it is asked to load, then
    [PlayAt] on that row does not return, whatever the fuel. *)
Theorem PlayAt_can_nest_without_end (k : Z) (item : PlaylistItem.t)
    (Hoffer : forall pl, next_index pl = k)
    (Hspecial : PlaylistItem.has item PlaylistItem.SpecialPlayBehaviour = true)
    (Hurl : PlaylistItem.Url item <> QUrl_empty)
    (Hnone : forall n,
        PlaylistItem.StartLoading item n = PlaylistItem.NoMoreTracks) :
  forall fuel change reshuffle st,
    item_at (active st) k = Some item ->
    PlaylistItem.Url item <> loading_async_ st ->
    PlayAt fuel k change reshuffle st = OutOfFuel.
Proof.
  induction fuel as [| fuel IH]; intros change reshuffle st Hitem Htoken;
    pose proof (item_at_nonnegative _ _ _ Hitem) as Hpos;
    apply QUrl_eqb_neq in Htoken;
    cbn [PlayAt]; unfold PlayAt_with; cbv zeta;
    rewrite (PlayAt_current_item _ _ _ _ Hitem);
    cbn [moved_to current_item_ set_current_item_]; rewrite Hspecial;
    (replace (loading_async_ _) with (loading_async_ st)
      by (destruct reshuffle; reflexivity));
    rewrite Htoken; unfold call_StartLoading; rewrite Hnone;
    unfold HandleSpecialLoad_with, NextItem_with; cbv zeta;
    rewrite Hoffer;
    (destruct (Z.eqb_spec k (-1)); [lia |]).
  - reflexivity.
  - apply IH.
    + destruct reshuffle; exact Hitem.
    + exact Hurl.
Qed.

End MovingOn.

(** [Next] from the file of a sample playlist to the stream after it. *)
Lemma NextInternal_plays_the_next_row_witness :
  exists st',
    NextInternal (nav := Sample.linear) 0 Engine.Manual Scenes.file_then_stream
    = Ok st'
    /\ current_index (active st') = 1
    /\ current_item_ st' = Some Sample.stream_item
    /\ loading_async_ st' = QUrl_empty
    /\ Engine.calls (engine_ st')
       = [Engine.CPlay Sample.url_stream Engine.Manual]
    /\ loads st' = []
    /\ emitted st' = [SigTrackSkipped (Some Sample.file_item)].
Proof.
  refine (NextInternal_plays_the_next_row (nav := Sample.linear) 0
            Engine.Manual Scenes.file_then_stream Sample.stream_item _ _ _ _).
  - reflexivity.
  - intros current H. vm_compute in H. injection H as <-. reflexivity.
  - reflexivity.
  - reflexivity.
Defined.

(** The item under the cursor has no more tracks and a stream comes next;
    the load was recorded as the first change. *)
Lemma NoMoreTracks_moves_on_as_Auto_witness :
  exists st',
    HandleSpecialLoad (nav := Sample.linear) 0 PlaylistItem.NoMoreTracks
      Scenes.file_then_stream = Ok st'
    /\ Engine.calls (engine_ st')
       = [Engine.CPlay Sample.url_stream Engine.Auto]
    /\ stream_change_type_ st' = Engine.First
    /\ current_index (active st') = 1
    /\ current_item_ st' = Some Sample.stream_item
    /\ loading_async_ st' = QUrl_empty.
Proof.
  refine (NoMoreTracks_moves_on_as_Auto (nav := Sample.linear) 0
            Scenes.file_then_stream Sample.stream_item _ _); reflexivity.
Defined.

(** A dry radio alone in a playlist on repeat. *)
Lemma PlayAt_can_nest_without_end_witness :
  PlayAt (nav := Scenes.repeat_one) 100 0 Engine.First true Scenes.on_dry
  = OutOfFuel.
Proof.
  refine (PlayAt_can_nest_without_end (nav := Scenes.repeat_one) 0
            Scenes.dry_item _ _ _ _ 100%nat Engine.First true Scenes.on_dry
            _ _).
  - intros pl. reflexivity.
  - reflexivity.
  - discriminate.
  - intros n. reflexivity.
  - reflexivity.
  - discriminate.
Defined.

(** ** Before the end of a track *)

Section AboutToEnd.

Context {nav : Navigation}.

(** X12.  With crossfade off, [TrackAboutToEnd] does not navigate: when it
    returns, the playlist with its cursor, the current item, the recorded
    change type, the scrobbler and the signals are as they were, and the
    engine was asked nothing, or asked once to preload and nothing else.
    With no current item it dereferences the null pointer. *)
Theorem TrackAboutToEnd_only_preloads (fuel : nat) (st : Player)
    (Hoff : Engine.is_autocrossfade_enabled (engine_ st) = false) :
  (forall st',
      TrackAboutToEnd fuel st = Ok st' ->
      active st' = active st
      /\ current_item_ st' = current_item_ st
      /\ stream_change_type_ st' = stream_change_type_ st
      /\ lastfm_ st' = lastfm_ st
      /\ emitted st' = emitted st
      /\ (Engine.calls (engine_ st') = Engine.calls (engine_ st)
          \/ exists url,
               Engine.calls (engine_ st')
               = Engine.calls (engine_ st) ++ [Engine.CStartPreloading url]))
  /\ (current_item_ st = None -> TrackAboutToEnd fuel st = NullDeref).
Proof.
  unfold TrackAboutToEnd. rewrite Hoff. split.
  - intros st' Hrun.
    destruct (current_item_ st) as [current |] eqn:Hcur; [| discriminate].
    destruct (PlaylistItem.has current PlaylistItem.ContainsMultipleTracks);
      [injection Hrun as <-; rewrite Hcur; auto 10 |].
    destruct (next_index (active st) =? -1);
      [injection Hrun as <-; rewrite Hcur; auto 10 |].
    destruct (item_at (active st) (next_index (active st))) as [item |];
      [| injection Hrun as <-; rewrite Hcur; auto 10].
    destruct (PlaylistItem.has item PlaylistItem.ContainsMultipleTracks).
    + unfold call_LoadNext in Hrun.
      destruct (PlaylistItem.LoadNext item _) as [| original media | original];
        injection Hrun as <-; cbn; rewrite Hcur.
      * auto 10.
      * refine (conj eq_refl (conj eq_refl (conj eq_refl (conj eq_refl
                  (conj eq_refl (or_intror _)))))).
        exists media. reflexivity.
      * auto 10.
    + injection Hrun as <-. cbn. rewrite Hcur.
      refine (conj eq_refl (conj eq_refl (conj eq_refl (conj eq_refl
                (conj eq_refl (or_intror _)))))).
      exists (PlaylistItem.Url item). reflexivity.
  - intros Hnull. rewrite Hnull. reflexivity.
Qed.

Lemma TrackAboutToEnd_runs (fuel : nat) (st : Player)
    (current item : PlaylistItem.t) :
  Engine.is_autocrossfade_enabled (engine_ st) = false ->
  current_item_ st = Some current ->
  PlaylistItem.has current PlaylistItem.ContainsMultipleTracks = false ->
  item_at (active st) (next_index (active st)) = Some item ->
  TrackAboutToEnd fuel st
  = if PlaylistItem.has item PlaylistItem.ContainsMultipleTracks then
      match PlaylistItem.LoadNext item (List.length (loads st)) with
      | PlaylistItem.NoMoreTracks => Ok (snd (call_LoadNext item st))
      | PlaylistItem.WillLoadAsynchronously _ =>
          Ok (set_loading_async_ (PlaylistItem.Url item)
                (snd (call_LoadNext item st)))
      | PlaylistItem.TrackAvailable _ media =>
          Ok (on_engine (Engine.StartPreloading media)
                (snd (call_LoadNext item st)))
      end
    else Ok (on_engine (Engine.StartPreloading (PlaylistItem.Url item)) st).
Proof.
  intros Hoff Hcur Hsingle Hnext.
  pose proof (item_at_nonnegative _ _ _ Hnext) as Hpos.
  unfold TrackAboutToEnd. rewrite Hoff, Hcur, Hsingle, Hnext.
  destruct (Z.eqb_spec (next_index (active st)) (-1)); [lia |].
  destruct (PlaylistItem.has item PlaylistItem.ContainsMultipleTracks);
    [| reflexivity].
  unfold call_LoadNext. cbn [snd].
  destruct (PlaylistItem.LoadNext item _); reflexivity.
Qed.

(** X13.  With crossfade off, a current item that is no multi-track
    container and a next row, [TrackAboutToEnd] preloads what will play
    next.  When the next item is no container the engine is asked to
    preload its locator and no item is asked to load.  A container is
    asked for its next track: the engine is asked to preload the resolved
    locator when a track is available, and is asked nothing otherwise; and
    when the track will come later the async token becomes the locator of
    the container, whatever locator the answer names. *)
Theorem TrackAboutToEnd_preloads_what_comes_next (fuel : nat) (st : Player)
    (current item : PlaylistItem.t)
    (Hoff : Engine.is_autocrossfade_enabled (engine_ st) = false)
    (Hcur : current_item_ st = Some current)
    (Hsingle :
       PlaylistItem.has current PlaylistItem.ContainsMultipleTracks = false)
    (Hnext : item_at (active st) (next_index (active st)) = Some item) :
  exists st',
    TrackAboutToEnd fuel st = Ok st'
    /\ (PlaylistItem.has item PlaylistItem.ContainsMultipleTracks = false ->
        Engine.calls (engine_ st')
        = Engine.calls (engine_ st)
          ++ [Engine.CStartPreloading (PlaylistItem.Url item)]
        /\ loads st' = loads st
        /\ loading_async_ st' = loading_async_ st)
    /\ (PlaylistItem.has item PlaylistItem.ContainsMultipleTracks = true ->
        loads st' = loads st ++ [ReqLoadNext (PlaylistItem.Url item)]
        /\ match PlaylistItem.LoadNext item (List.length (loads st)) with
           | PlaylistItem.NoMoreTracks =>
               Engine.calls (engine_ st') = Engine.calls (engine_ st)
               /\ loading_async_ st' = loading_async_ st
           | PlaylistItem.WillLoadAsynchronously _ =>
               Engine.calls (engine_ st') = Engine.calls (engine_ st)
               /\ loading_async_ st' = PlaylistItem.Url item
           | PlaylistItem.TrackAvailable _ media =>
               Engine.calls (engine_ st')
               = Engine.calls (engine_ st) ++ [Engine.CStartPreloading media]
               /\ loading_async_ st' = loading_async_ st
           end).
Proof.
  rewrite (TrackAboutToEnd_runs fuel st current item Hoff Hcur Hsingle Hnext).
  destruct (PlaylistItem.has item PlaylistItem.ContainsMultipleTracks).
  - destruct (PlaylistItem.LoadNext item _) eqn:Hanswer; eexists;
      (split; [reflexivity |]);
      (split; [intros H; discriminate H |]);
      intros _; cbn; repeat split.
  - eexists. split; [reflexivity |].
    split; [intros _; cbn; repeat split | intros H; discriminate H].
Qed.

(** X14.  A load that [TrackAboutToEnd] started is not started again when
    the track ends.  With crossfade off and no stop-after marker, a
    current item that is no container, and a next row holding a container
    with [SpecialPlayBehaviour] that answers that its track will come
    later: [TrackAboutToEnd] asks the container to load, and the
    [TrackEnded] that follows moves the cursor to the container without
    asking it to load again and without asking anything of the engine. *)
Theorem TrackEnded_after_TrackAboutToEnd_waits (fuel : nat) (st : Player)
    (current item : PlaylistItem.t) (original : QUrl)
    (Hoff : Engine.is_autocrossfade_enabled (engine_ st) = false)
    (Hmarker : stop_after_current (active st) = false)
    (Hcur : current_item_ st = Some current)
    (Hcursor : current_item (active st) = Some current)
    (Hsingle :
       PlaylistItem.has current PlaylistItem.ContainsMultipleTracks = false)
    (Hnext : item_at (active st) (next_index (active st)) = Some item)
    (Hmulti : PlaylistItem.has item PlaylistItem.ContainsMultipleTracks = true)
    (Hspecial : PlaylistItem.has item PlaylistItem.SpecialPlayBehaviour = true)
    (Hlater : PlaylistItem.LoadNext item (List.length (loads st))
              = PlaylistItem.WillLoadAsynchronously original) :
  exists st1 st2,
    TrackAboutToEnd fuel st = Ok st1
    /\ TrackEnded fuel st1 = Ok st2
    /\ loading_async_ st1 = PlaylistItem.Url item
    /\ loads st1 = loads st ++ [ReqLoadNext (PlaylistItem.Url item)]
    /\ loads st2 = loads st1
    /\ Engine.calls (engine_ st2) = Engine.calls (engine_ st)
    /\ current_index (active st2) = next_index (active st)
    /\ current_item_ st2 = Some item
    /\ loading_async_ st2 = PlaylistItem.Url item.
Proof.
  pose proof (item_at_nonnegative _ _ _ Hnext) as Hpos.
  set (st1 := set_loading_async_ (PlaylistItem.Url item)
                (snd (call_LoadNext item st))).
  exists st1, (moved_to (next_index (active st)) false item st1).
  split.
  { rewrite (TrackAboutToEnd_runs fuel st current item
               Hoff Hcur Hsingle Hnext).
    rewrite Hmulti, Hlater. reflexivity. }
  split.
  { unfold TrackEnded, NextInternal. cbv zeta.
    change (active st1) with (active st).
    rewrite Hmarker, Hcursor, Hsingle.
    unfold NextItem, NextItem_with. cbv zeta.
    change (active st1) with (active st).
    destruct (Z.eqb_spec (next_index (active st)) (-1)); [lia |].
    apply PlayAt_already_loading; [exact Hnext | exact Hspecial | reflexivity]. }
  repeat split.
Qed.

End AboutToEnd.

(** The file of a sample playlist is about to end, a stream comes next. *)
Lemma TrackAboutToEnd_only_preloads_witness :
  exists st',
    TrackAboutToEnd (nav := Sample.linear) 0 Scenes.file_then_stream = Ok st'
    /\ active st' = active Scenes.file_then_stream
    /\ current_item_ st' = current_item_ Scenes.file_then_stream
    /\ stream_change_type_ st' = stream_change_type_ Scenes.file_then_stream
    /\ lastfm_ st' = lastfm_ Scenes.file_then_stream
    /\ emitted st' = emitted Scenes.file_then_stream
    /\ (Engine.calls (engine_ st')
        = Engine.calls (engine_ Scenes.file_then_stream)
        \/ exists url,
             Engine.calls (engine_ st')
             = Engine.calls (engine_ Scenes.file_then_stream)
               ++ [Engine.CStartPreloading url]).
Proof.
  eexists. split; [vm_compute; reflexivity |].
  refine (proj1 (TrackAboutToEnd_only_preloads (nav := Sample.linear) 0
                   Scenes.file_then_stream _) _ _).
  - reflexivity.
  - vm_compute. reflexivity.
Defined.

(** The same, with what is preloaded. *)
Lemma TrackAboutToEnd_preloads_what_comes_next_witness :
  exists st',
    TrackAboutToEnd (nav := Sample.linear) 0 Scenes.file_then_stream = Ok st'
    /\ (PlaylistItem.has Sample.stream_item PlaylistItem.ContainsMultipleTracks
        = false ->
        Engine.calls (engine_ st')
        = Engine.calls (engine_ Scenes.file_then_stream)
          ++ [Engine.CStartPreloading (PlaylistItem.Url Sample.stream_item)]
        /\ loads st' = loads Scenes.file_then_stream
        /\ loading_async_ st' = loading_async_ Scenes.file_then_stream)
    /\ (PlaylistItem.has Sample.stream_item PlaylistItem.ContainsMultipleTracks
        = true ->
        loads st'
        = loads Scenes.file_then_stream
          ++ [ReqLoadNext (PlaylistItem.Url Sample.stream_item)]
        /\ match PlaylistItem.LoadNext Sample.stream_item
                   (List.length (loads Scenes.file_then_stream)) with
           | PlaylistItem.NoMoreTracks =>
               Engine.calls (engine_ st')
               = Engine.calls (engine_ Scenes.file_then_stream)
               /\ loading_async_ st' = loading_async_ Scenes.file_then_stream
           | PlaylistItem.WillLoadAsynchronously _ =>
               Engine.calls (engine_ st')
               = Engine.calls (engine_ Scenes.file_then_stream)
               /\ loading_async_ st' = PlaylistItem.Url Sample.stream_item
           | PlaylistItem.TrackAvailable _ media =>
               Engine.calls (engine_ st')
               = Engine.calls (engine_ Scenes.file_then_stream)
                 ++ [Engine.CStartPreloading media]
               /\ loading_async_ st' = loading_async_ Scenes.file_then_stream
           end).
Proof.
  refine (TrackAboutToEnd_preloads_what_comes_next (nav := Sample.linear) 0
            Scenes.file_then_stream Sample.file_item Sample.stream_item
            _ _ _ _); reflexivity.
Defined.

(** The file of a sample playlist ends, the radio comes next. *)
Lemma TrackEnded_after_TrackAboutToEnd_waits_witness :
  exists st1 st2,
    TrackAboutToEnd (nav := Sample.linear) 0 Scenes.file_then_radio = Ok st1
    /\ TrackEnded (nav := Sample.linear) 0 st1 = Ok st2
    /\ loading_async_ st1 = Sample.url_radio
    /\ loads st1 = [ReqLoadNext Sample.url_radio]
    /\ loads st2 = loads st1
    /\ Engine.calls (engine_ st2) = []
    /\ current_index (active st2) = 1
    /\ current_item_ st2 = Some Sample.radio_item
    /\ loading_async_ st2 = Sample.url_radio.
Proof.
  refine (TrackEnded_after_TrackAboutToEnd_waits (nav := Sample.linear) 0
            Scenes.file_then_radio Sample.file_item Sample.radio_item
            Sample.url_radio _ _ _ _ _ _ _ _ _); reflexivity.
Defined.

(** ** Play, pause and play/pause *)

Section PlayAndPause.

Context {nav : Navigation}.

(** X15.  While the engine is playing, [PlayPause] asks the engine to
    pause, except that for a current item with [PauseDisabled] it asks the
    engine to stop; either way it asks nothing else and leaves the cursor
    and the current item where they are (it is not [Stop]).  [Pause] asks
    the engine to pause whether or not the item has [PauseDisabled].  With
    no current item [PlayPause] dereferences the null pointer and [Pause]
    does not. *)
Theorem PlayPause_while_playing (fuel : nat) (current : Playlist)
    (st : Player) (Hplaying : Engine.state (engine_ st) = Engine.Playing) :
  (forall item,
      current_item_ st = Some item ->
      exists st',
        PlayPause fuel current st = Ok st'
        /\ Engine.calls (engine_ st')
           = Engine.calls (engine_ st)
             ++ [if PlaylistItem.has item PlaylistItem.PauseDisabled
                 then Engine.CStop else Engine.CPause]
        /\ active st' = active st
        /\ current_item_ st' = Some item
        /\ emitted st' = emitted st)
  /\ (current_item_ st = None -> PlayPause fuel current st = NullDeref)
  /\ Engine.calls (engine_ (Pause st))
     = Engine.calls (engine_ st) ++ [Engine.CPause].
Proof.
  unfold PlayPause, Pause, GetState. rewrite Hplaying.
  split; [| split].
  - intros item Hcur. rewrite Hcur.
    destruct (PlaylistItem.has item PlaylistItem.PauseDisabled);
      eexists; (split; [reflexivity |]); cbn; auto.
  - intros Hcur. rewrite Hcur. reflexivity.
  - reflexivity.
Qed.

(** X16.  With the engine empty or idle, [PlayPause] makes the playlist on
    display the active one and, unless it has no rows, resumes: at its
    current row if it has one, else at its last played row if it has one,
    else at row 0.  With an item without [SpecialPlayBehaviour] there, the
    cursor is reset to -1 and set to that row and the engine is asked to
    play the item as the first change.  On a playlist without rows the
    engine is asked nothing. *)
Theorem PlayPause_resumes (fuel : nat) (current : Playlist) (st : Player)
    (Hrest : Engine.state (engine_ st) = Engine.Empty
             \/ Engine.state (engine_ st) = Engine.Idle) :
  let resume :=
    if current_index current =? -1
    then if last_played_index current =? -1 then 0
         else last_played_index current
    else current_index current in
  (rowCount current = 0 ->
   exists st',
     PlayPause fuel current st = Ok st'
     /\ active st' = current
     /\ Engine.calls (engine_ st') = Engine.calls (engine_ st)
     /\ current_item_ st' = current_item_ st)
  /\ (forall item,
        item_at current resume = Some item ->
        PlaylistItem.has item PlaylistItem.SpecialPlayBehaviour = false ->
        exists st',
          PlayPause fuel current st = Ok st'
          /\ items (active st') = items current
          /\ current_index (active st') = resume
          /\ index_history (active st')
             = resume :: -1 :: index_history current
          /\ current_item_ st' = Some item
          /\ Engine.calls (engine_ st')
             = Engine.calls (engine_ st)
               ++ [Engine.CPlay (PlaylistItem.Url item) Engine.First]).
Proof.
  intros resume.
  assert (Hrun : PlayPause fuel current st
    = (if rowCount current =? 0 then Ok (SetActivePlaylist current st)
       else PlayAt fuel resume Engine.First true
              (SetActivePlaylist current st))).
  { unfold PlayPause. cbv zeta.
    change (active (SetActivePlaylist current st)) with current.
    assert (Hresume :
      (if (if current_index current =? -1 then last_played_index current
           else current_index current) =? -1
       then 0
       else if current_index current =? -1 then last_played_index current
            else current_index current) = resume).
    { subst resume.
      destruct (Z.eqb_spec (current_index current) (-1)) as [E | E].
      - reflexivity.
      - destruct (Z.eqb_spec (current_index current) (-1)); [lia | reflexivity]. }
    rewrite Hresume.
    destruct Hrest as [-> | ->]; reflexivity. }
  rewrite Hrun. split.
  - intros Hempty. rewrite Hempty. simpl (0 =? 0).
    eexists. split; [reflexivity |]. cbn. auto.
  - intros item Hitem Hplain.
    assert (Hrows : rowCount current <> 0).
    { unfold rowCount. unfold item_at in Hitem.
      destruct (resume <? 0); [discriminate |].
      destruct (items current); [| cbn; lia].
      destruct (Z.to_nat resume); discriminate. }
    destruct (Z.eqb_spec (rowCount current) 0); [contradiction |].
    rewrite (PlayAt_plain_runs fuel resume Engine.First true item
               (SetActivePlaylist current st) Hitem Hplain).
    eexists. split; [reflexivity |].
    destruct (plays_facts resume Engine.First true item
                (SetActivePlaylist current st))
      as (A & B & C & _ & Hcalls & _ & _ & _ & _ & J).
    auto 10.
Qed.

(** X17.  [Play] while the engine is playing restarts the track: the
    engine is asked to seek to 0, whatever the length of the track, and
    the playlist is marked as scrobbled; the cursor and the current item
    stay.  While paused it asks the engine to unpause, and otherwise it is
    [PlayPause]. *)
Theorem Play_restarts_or_resumes (fuel : nat) (current : Playlist)
    (st : Player) :
  (Engine.state (engine_ st) = Engine.Playing ->
   exists st',
     Play fuel current st = Ok st'
     /\ Engine.calls (engine_ st') = Engine.calls (engine_ st) ++ [Engine.CSeek 0]
     /\ scrobbled (active st') = true
     /\ current_index (active st') = current_index (active st)
     /\ current_item_ st' = current_item_ st)
  /\ (Engine.state (engine_ st) = Engine.Paused ->
      Play fuel current st = Ok (on_engine Engine.Unpause st))
  /\ (Engine.state (engine_ st) = Engine.Empty
      \/ Engine.state (engine_ st) = Engine.Idle ->
      Play fuel current st = PlayPause fuel current st).
Proof.
  unfold Play, GetState. split; [| split].
  - intros ->. eexists. split; [reflexivity |].
    unfold Seek. cbv zeta.
    assert (Hzero : forall len, qBound 0 (to_int (0 * 1000)) len = 0)
      by (intros len; unfold qBound; change (to_int (0 * 1000)) with 0; lia).
    rewrite Hzero. cbn. auto.
  - intros ->. reflexivity.
  - intros [-> | ->]; reflexivity.
Qed.

End PlayAndPause.

(** [PlayPause] and [Pause] while the sample last.fm radio plays. *)
Lemma PlayPause_while_playing_witness :
  (exists st',
      PlayPause (nav := Sample.linear) 0 (active Scenes.lastfm_playing)
        Scenes.lastfm_playing = Ok st'
      /\ Engine.calls (engine_ st') = [Engine.CStop]
      /\ active st' = active Scenes.lastfm_playing
      /\ current_item_ st' = Some Scenes.lastfm_item
      /\ emitted st' = [])
  /\ Engine.calls (engine_ (Pause Scenes.lastfm_playing)) = [Engine.CPause].
Proof.
  split.
  - refine (proj1 (PlayPause_while_playing (nav := Sample.linear) 0
                     (active Scenes.lastfm_playing) Scenes.lastfm_playing _)
              Scenes.lastfm_item _); reflexivity.
  - refine (proj2 (proj2 (PlayPause_while_playing (nav := Sample.linear) 0
                            (active Scenes.lastfm_playing)
                            Scenes.lastfm_playing _))).
    reflexivity.
Defined.

(** [PlayPause] on the sample player at rest: nothing was played yet. *)
Lemma PlayPause_resumes_witness :
  exists st',
    PlayPause (nav := Sample.linear) 0 (active Sample.idle) Sample.idle = Ok st'
    /\ items (active st') = items (active Sample.idle)
    /\ current_index (active st') = 0
    /\ index_history (active st') = [0; -1]
    /\ current_item_ st' = Some Sample.file_item
    /\ Engine.calls (engine_ st')
       = [Engine.CPlay Sample.url_file Engine.First].
Proof.
  refine (proj2 (PlayPause_resumes (nav := Sample.linear) 0
                   (active Sample.idle) Sample.idle _) Sample.file_item _ _).
  - left. reflexivity.
  - reflexivity.
  - reflexivity.
Defined.

(** [Play] while the file of a sample playlist plays. *)
Lemma Play_restarts_or_resumes_witness :
  exists st',
    Play (nav := Sample.linear) 0 (active Scenes.file_then_stream)
      Scenes.file_then_stream = Ok st'
    /\ Engine.calls (engine_ st') = [Engine.CSeek 0]
    /\ scrobbled (active st') = true
    /\ current_index (active st') = 0
    /\ current_item_ st' = Some Sample.file_item.
Proof.
  refine (proj1 (Play_restarts_or_resumes (nav := Sample.linear) 0
                   (active Scenes.file_then_stream) Scenes.file_then_stream) _).
  reflexivity.
Defined.

(** ** The volume, across everything *)

Lemma qBound_volume (v : Z) : 0 <= qBound 0 v 100 <= 100.
Proof. unfold qBound. lia. Qed.

Lemma SetVolume_in_step (v : Z) (st : Player) :
  volume_in_step (SetVolume v st).
Proof.
  unfold volume_in_step. rewrite SetVolume_volume.
  split; [| apply qBound_volume].
  unfold SetVolume. destruct (negb _); reflexivity.
Qed.

Lemma in_step_same (st st' : Player) :
  Engine.volume (engine_ st') = Engine.volume (engine_ st) ->
  settings_volume st' = settings_volume st ->
  volume_in_step st -> volume_in_step st'.
Proof. unfold volume_in_step. intros -> ->. exact (fun H => H). Qed.

Lemma EngineMetadataReceived_touches_the_playlist_only
    (bundle : Engine.SimpleMetaBundle) (st : Player) :
  engine_ (EngineMetadataReceived bundle st) = engine_ st
  /\ settings_volume (EngineMetadataReceived bundle st) = settings_volume st
  /\ volume_before_mute_ (EngineMetadataReceived bundle st)
     = volume_before_mute_ st.
Proof.
  unfold EngineMetadataReceived.
  destruct (current_item (active st)); [| repeat split].
  cbv zeta.
  match goal with
  | |- context [if ?c then st else _] => destruct c
  end; repeat split.
Qed.

Section VolumeAcrossEvents.

Context {nav : Navigation}.

Lemma PlayPause_keeps_in_step (fuel : nat) (current : Playlist)
    (st st' : Player) :
  volume_in_step st -> PlayPause fuel current st = Ok st' ->
  volume_in_step st'.
Proof.
  intros Hinv Hrun. unfold PlayPause in Hrun. cbv zeta in Hrun.
  destruct (Engine.state (engine_ st)).
  - destruct (rowCount _ =? 0).
    + injection Hrun as <-. exact Hinv.
    + destruct (PlayAt_respects _ only_navigated_closed fuel _ _ _ _ _ Hrun)
        as (A & B & _).
      apply (in_step_same (SetActivePlaylist current st)); auto.
  - destruct (rowCount _ =? 0).
    + injection Hrun as <-. exact Hinv.
    + destruct (PlayAt_respects _ only_navigated_closed fuel _ _ _ _ _ Hrun)
        as (A & B & _).
      apply (in_step_same (SetActivePlaylist current st)); auto.
  - destruct (current_item_ st) as [item |]; [| discriminate].
    destruct (PlaylistItem.has item PlaylistItem.PauseDisabled);
      injection Hrun as <-; exact Hinv.
  - injection Hrun as <-. exact Hinv.
Qed.

Lemma handle_keeps_in_step (fuel : nat) (ev : event) (st st' : Player) :
  volume_in_step st -> handle fuel ev st = Ok st' -> volume_in_step st'.
Proof.
  intros Hinv Hrun.
  destruct (navigates ev) eqn:Hnav.
  { destruct (handle_navigation_respects _ only_navigated_closed
                fuel ev st st' Hnav Hrun) as (A & B & _).
    apply (in_step_same st); assumption. }
  destruct ev; try discriminate Hnav; cbn [handle] in Hrun.
  - exact (PlayPause_keeps_in_step fuel current st st' Hinv Hrun).
  - unfold Play, GetState in Hrun.
    destruct (Engine.state (engine_ st)) eqn:Hstate.
    + exact (PlayPause_keeps_in_step fuel current st st' Hinv Hrun).
    + exact (PlayPause_keeps_in_step fuel current st st' Hinv Hrun).
    + injection Hrun as <-. exact Hinv.
    + injection Hrun as <-. exact Hinv.
  - injection Hrun as <-. unfold Pause, GetState.
    destruct (Engine.state (engine_ st)); exact Hinv.
  - injection Hrun as <-. apply SetVolume_in_step.
  - injection Hrun as <-. unfold Mute. cbv zeta.
    destruct (Engine.volume (engine_ st) =? 0); apply SetVolume_in_step.
  - injection Hrun as <-. exact Hinv.
  - injection Hrun as <-. unfold ShowOSD.
    destruct (current_item_ st); exact Hinv.
  - injection Hrun as <-. destruct state; exact Hinv.
  - injection Hrun as <-.
    destruct (EngineMetadataReceived_touches_the_playlist_only bundle st)
      as (A & B & _).
    apply (in_step_same st); [rewrite A; reflexivity | exact B | exact Hinv].
  - injection Hrun as <-. exact Hinv.
Qed.

(** X18.  The persisted volume and the volume of the engine stay in step.
    [SetVolume] always leaves the settings and the engine with the same
    volume, between 0 and 100; and once that holds it holds after any
    sequence of calls and signals the player handles: navigation, play and
    pause, seeking, muting, metadata and state changes of the engine. *)
Theorem volume_stays_in_step (fuel : nat) (evs : list event)
    (st st' : Player)
    (Hinv : volume_in_step st)
    (Hrun : handle_all fuel evs st = Ok st') :
  volume_in_step st'
  /\ forall value, volume_in_step (SetVolume value st').
Proof.
  split; [| intros value; apply SetVolume_in_step].
  revert st Hinv Hrun.
  induction evs as [| ev evs IH]; intros st Hinv Hrun; cbn [handle_all] in Hrun.
  - injection Hrun as <-. exact Hinv.
  - destruct (handle fuel ev st) as [mid | |] eqn:Hmid; try discriminate.
    exact (IH mid (handle_keeps_in_step fuel ev st mid Hinv Hmid) Hrun).
Qed.

End VolumeAcrossEvents.

(** X19.  [SetVolume] announces changes only: called right after
    [SetVolume(v)], [SetVolume(w)] emits [VolumeChanged] exactly when the
    two values differ once clamped, so repeating a value, or giving another
    value beyond the same end of the range, announces nothing. *)
Theorem SetVolume_announces_changes_only (v w : Z) (st : Player) :
  emitted (SetVolume w (SetVolume v st))
  = emitted (SetVolume v st)
    ++ (if qBound 0 w 100 =? qBound 0 v 100 then []
        else [SigVolumeChanged (qBound 0 w 100)])
  /\ emitted (SetVolume v (SetVolume v st)) = emitted (SetVolume v st)
  /\ emitted (SetVolume 250 (SetVolume 150 st)) = emitted (SetVolume 150 st).
Proof.
  assert (Hgen : forall a b,
    emitted (SetVolume b (SetVolume a st))
    = emitted (SetVolume a st)
      ++ (if qBound 0 b 100 =? qBound 0 a 100 then []
          else [SigVolumeChanged (qBound 0 b 100)])).
  { intros a b. unfold SetVolume at 1. cbv zeta.
    rewrite SetVolume_volume.
    destruct (qBound 0 b 100 =? qBound 0 a 100); cbn [negb].
    - rewrite app_nil_r. reflexivity.
    - reflexivity. }
  split; [apply Hgen | split].
  - rewrite Hgen, Z.eqb_refl, app_nil_r. reflexivity.
  - rewrite Hgen. change (qBound 0 250 100 =? qBound 0 150 100) with true.
    rewrite app_nil_r. reflexivity.
Qed.

(** X20.  [Mute] cannot tell a mute from a volume of 0: whenever the
    engine volume is 0 it sets the volume to the cached
    [volume_before_mute_], clamped, and leaves the cache.  So after
    [SetVolume(0)], [Mute] does not bring back the volume there was
    before, but the one cached by the last real mute (50 in a new
    player). *)
Theorem Mute_at_volume_zero (st : Player) :
  (Engine.volume (engine_ st) = 0 ->
   GetVolume (Mute st) = qBound 0 (volume_before_mute_ st) 100
   /\ volume_before_mute_ (Mute st) = volume_before_mute_ st)
  /\ GetVolume (Mute (SetVolume 0 st)) = qBound 0 (volume_before_mute_ st) 100.
Proof.
  assert (Hzero : forall s, Engine.volume (engine_ s) = 0 ->
    GetVolume (Mute s) = qBound 0 (volume_before_mute_ s) 100
    /\ volume_before_mute_ (Mute s) = volume_before_mute_ s).
  { intros s Hs. unfold Mute, GetVolume. cbv zeta. rewrite Hs. cbn [Z.eqb].
    rewrite SetVolume_volume. split; [reflexivity |].
    unfold SetVolume. destruct (negb _); reflexivity. }
  split; [apply Hzero |].
  assert (H0 : Engine.volume (engine_ (SetVolume 0 st)) = 0)
    by (rewrite SetVolume_volume; reflexivity).
  destruct (Hzero (SetVolume 0 st) H0) as [A _].
  rewrite A. f_equal.
  unfold SetVolume. destruct (negb _); reflexivity.
Qed.

(** X21.  A player is constructed with the stored volume clamped: when
    the chosen engine is compiled in, the new player has the volume of the
    settings (50 when none is stored) clamped to 0..100 in the engine and
    persisted, 50 cached for unmuting, no current item and no load in
    flight; [Init], which hands the engine the persisted volume without
    clamping it, therefore hands it a volume between 0 and 100, and is
    fatal exactly when the engine fails to initialise. *)
Theorem Player_starts_with_a_clamped_volume (build : Build)
    (fresh : EngineType -> Engine.Base) (playlists : Playlist)
    (lastfm : LastFMService) (engine : EngineType) (stored : option Z)
    (e : Engine.Base)
    (Hengine : CreateEngine build fresh engine = Some e) :
  let clamped := qBound 0 (stored_volume stored) 100 in
  exists st,
    Player_new build fresh playlists lastfm engine stored = Some st
    /\ volume_in_step st
    /\ Engine.volume (engine_ st) = clamped
    /\ volume_before_mute_ st = 50
    /\ current_item_ st = None
    /\ loading_async_ st = QUrl_empty
    /\ Init false st = None
    /\ exists st1,
         Init true st = Some st1
         /\ volume_in_step st1
         /\ Engine.calls (engine_ st1)
            = Engine.calls e
              ++ [Engine.CSetVolume clamped; Engine.CSetVolume clamped].
Proof.
  intros clamped. unfold Player_new. rewrite Hengine.
  eexists. split; [reflexivity |].
  split; [apply SetVolume_in_step |].
  split; [apply SetVolume_volume |].
  split; [unfold SetVolume; destruct (negb _); reflexivity |].
  split; [unfold SetVolume; destruct (negb _); reflexivity |].
  split; [unfold SetVolume; destruct (negb _); reflexivity |].
  split; [reflexivity |].
  eexists. split; [reflexivity |].
  split.
  - unfold volume_in_step. cbn [engine_ on_engine settings_volume
                                 Engine.volume Engine.SetVolume Engine.request].
    split; [reflexivity |].
    unfold SetVolume. destruct (negb _); apply qBound_volume.
  - unfold SetVolume. fold clamped. destruct (negb _); cbn;
      rewrite <- app_assoc; reflexivity.
Qed.

(** The sample player: volume 50, persisted. *)
Lemma volume_stays_in_step_witness :
  exists st',
    handle_all (nav := Sample.linear) 0
      [EvSetVolume 130; EvPlayPause (active Sample.idle); EvMute; EvSeek 3;
       EvNext; EvMute]
      Sample.idle = Ok st'
    /\ volume_in_step st'
    /\ forall value, volume_in_step (SetVolume value st').
Proof.
  eexists. split; [vm_compute; reflexivity |].
  refine (volume_stays_in_step (nav := Sample.linear) 0
            [EvSetVolume 130; EvPlayPause (active Sample.idle); EvMute;
             EvSeek 3; EvNext; EvMute]
            Sample.idle _ _ _).
  - split; [reflexivity | simpl; lia].
  - vm_compute. reflexivity.
Defined.

(** A stored volume of 150, in a build that has GStreamer. *)
Lemma Player_starts_with_a_clamped_volume_witness :
  exists st,
    Player_new Scenes.gstreamer_only Scenes.fresh_engine
      (active Sample.idle) (mkLastFM false []) Type_GStreamer (Some 150)
    = Some st
    /\ volume_in_step st
    /\ Engine.volume (engine_ st) = 100
    /\ volume_before_mute_ st = 50
    /\ current_item_ st = None
    /\ loading_async_ st = QUrl_empty
    /\ Init false st = None
    /\ exists st1,
         Init true st = Some st1
         /\ volume_in_step st1
         /\ Engine.calls (engine_ st1)
            = [Engine.CSetVolume 100; Engine.CSetVolume 100].
Proof.
  refine (Player_starts_with_a_clamped_volume Scenes.gstreamer_only
            Scenes.fresh_engine (active Sample.idle) (mkLastFM false [])
            Type_GStreamer (Some 150) (Scenes.fresh_engine Type_GStreamer) _).
  reflexivity.
Defined.

(** The volume is set to 0 by hand in the sample player, then muted. *)
Lemma Mute_at_volume_zero_witness :
  GetVolume (Mute (SetVolume 0 (SetVolume 80 Sample.idle))) = 50.
Proof.
  exact (proj2 (Mute_at_volume_zero (SetVolume 80 Sample.idle))).
Defined.

(** ** Seeking stays within the track *)

(** X22.  Whatever [seconds] is, also when [seconds * 1000] does not fit
    an [int], [Seek] asks the engine for one position and it lies within
    the track: between 0 and the length.  On a track of length 0, such as
    a stream of unknown length, every seek goes to 0. *)
Theorem Seek_stays_within_the_track (seconds : Z) (st : Player)
    (Hlen : 0 <= Engine.length (engine_ st) < 2 ^ 31) :
  exists msec,
    Engine.calls (engine_ (Seek seconds st))
    = Engine.calls (engine_ st) ++ [Engine.CSeek msec]
    /\ 0 <= msec <= Engine.length (engine_ st)
    /\ (Engine.length (engine_ st) = 0 -> msec = 0).
Proof.
  exists (qBound 0 (to_int (seconds * 1000))
            (to_int (Engine.length (engine_ st)))).
  split; [reflexivity |].
  rewrite (to_int_in_range (Engine.length (engine_ st))) by lia.
  unfold qBound. lia.
Qed.

(** A seek far beyond what an [int] of milliseconds holds. *)
Lemma Seek_stays_within_the_track_witness :
  exists msec,
    Engine.calls (engine_ (Seek 5000000 Sample.idle))
    = Engine.calls (engine_ Sample.idle) ++ [Engine.CSeek msec]
    /\ 0 <= msec <= Engine.length (engine_ Sample.idle)
    /\ (Engine.length (engine_ Sample.idle) = 0 -> msec = 0).
Proof.
  refine (Seek_stays_within_the_track 5000000 Sample.idle _).
  simpl. lia.
Defined.

(** ** More on metadata from the engine *)

(** X23.  A bundle that names an artist is never split, whatever its
    title holds, and is always published under the locator of the current
    item: with the bundle's artist and title for an ordinary item (an
    empty title leaving the item's own), and with the two exchanged for a
    provider that swaps, the bundle's artist becoming the title. *)
Theorem EngineMetadataReceived_with_an_artist
    (bundle : Engine.SimpleMetaBundle) (st : Player) (item : PlaylistItem.t)
    (Hcur : current_item (active st) = Some item)
    (Hartist : Engine.bundle_artist bundle <> EmptyString) :
  exists song,
    stream_metadata (active (EngineMetadataReceived bundle st))
    = (PlaylistItem.Url item, song) :: stream_metadata (active st)
    /\ (swaps_artist_and_title (PlaylistItem.Url item) = false ->
        artist song = Engine.bundle_artist bundle
        /\ title song
           = if QStr.isEmpty (Engine.bundle_title bundle)
             then title (PlaylistItem.Metadata item)
             else Engine.bundle_title bundle)
    /\ (swaps_artist_and_title (PlaylistItem.Url item) = true ->
        title song = Engine.bundle_artist bundle
        /\ artist song
           = if QStr.isEmpty (Engine.bundle_title bundle)
             then artist (PlaylistItem.Metadata item)
             else Engine.bundle_title bundle).
Proof.
  apply isEmpty_false in Hartist.
  unfold EngineMetadataReceived. rewrite Hcur. cbv zeta.
  rewrite Hartist, andb_false_r.
  destruct (swaps_artist_and_title (PlaylistItem.Url item));
    cbn [MergeFromSimpleMetaBundle Engine.bundle_title Engine.bundle_artist
         Engine.bundle_album title artist];
    do 3 (rewrite ?Hartist, ?andb_false_r; cbv beta iota delta [andb]);
    eexists; (split; [reflexivity |]);
    (split; intros Hswap; try discriminate Hswap);
    cbn [title artist MergeFromSimpleMetaBundle Engine.bundle_title
         Engine.bundle_artist Engine.bundle_album];
    rewrite ?Hartist; split; reflexivity.
Qed.

(** X24.  A bundle without title and without artist brings nothing: for
    an item that has neither a title nor an artist of its own it is
    dropped and the store is left as it was; for an item that has one, the
    item's own title and artist are published again under its locator. *)
Theorem EngineMetadataReceived_without_title_and_artist
    (bundle : Engine.SimpleMetaBundle) (st : Player) (item : PlaylistItem.t)
    (Hcur : current_item (active st) = Some item)
    (Htitle : Engine.bundle_title bundle = EmptyString)
    (Hartist : Engine.bundle_artist bundle = EmptyString) :
  (title (PlaylistItem.Metadata item) = EmptyString ->
   artist (PlaylistItem.Metadata item) = EmptyString ->
   EngineMetadataReceived bundle st = st)
  /\ (title (PlaylistItem.Metadata item) <> EmptyString
      \/ artist (PlaylistItem.Metadata item) <> EmptyString ->
      exists song,
        stream_metadata (active (EngineMetadataReceived bundle st))
        = (PlaylistItem.Url item, song) :: stream_metadata (active st)
        /\ title song = title (PlaylistItem.Metadata item)
        /\ artist song = artist (PlaylistItem.Metadata item)).
Proof.
  assert (Hrun : EngineMetadataReceived bundle st
    = if QStr.isEmpty (title (PlaylistItem.Metadata item))
         && QStr.isEmpty (artist (PlaylistItem.Metadata item))
      then st
      else on_playlist
             (SetStreamMetadata (PlaylistItem.Url item)
                (mkSong (title (PlaylistItem.Metadata item))
                        (artist (PlaylistItem.Metadata item))
                        (if QStr.isEmpty (Engine.bundle_album bundle)
                         then album (PlaylistItem.Metadata item)
                         else Engine.bundle_album bundle))) st).
  { destruct bundle as [t a al]. cbn in Htitle, Hartist. subst t a.
    unfold EngineMetadataReceived. rewrite Hcur.
    destruct (swaps_artist_and_title (PlaylistItem.Url item)); reflexivity. }
  rewrite Hrun. split.
  - intros -> ->. reflexivity.
  - intros Hown.
    assert (Hkeep : QStr.isEmpty (title (PlaylistItem.Metadata item))
                    && QStr.isEmpty (artist (PlaylistItem.Metadata item))
                    = false).
    { destruct Hown as [H | H]; apply isEmpty_false in H; rewrite H;
        [reflexivity | apply andb_false_r]. }
    rewrite Hkeep. eexists. split; [reflexivity |]. split; reflexivity.
Qed.

(** A bundle with artist and title for a plain stream and for an icecast
    one. *)
Lemma EngineMetadataReceived_with_an_artist_witness :
  exists song,
    stream_metadata
      (active (EngineMetadataReceived
                 (Engine.mkBundle "Blue - Green" "Somebody" EmptyString)
                 Sample.on_icecast))
    = (PlaylistItem.Url Sample.icecast_item, song)
      :: stream_metadata (active Sample.on_icecast)
    /\ (swaps_artist_and_title (PlaylistItem.Url Sample.icecast_item) = false ->
        artist song = "Somebody"%string
        /\ title song
           = if QStr.isEmpty "Blue - Green"
             then title (PlaylistItem.Metadata Sample.icecast_item)
             else "Blue - Green"%string)
    /\ (swaps_artist_and_title (PlaylistItem.Url Sample.icecast_item) = true ->
        title song = "Somebody"%string
        /\ artist song
           = if QStr.isEmpty "Blue - Green"
             then artist (PlaylistItem.Metadata Sample.icecast_item)
             else "Blue - Green"%string).
Proof.
  refine (EngineMetadataReceived_with_an_artist
            (Engine.mkBundle "Blue - Green" "Somebody" EmptyString)
            Sample.on_icecast Sample.icecast_item _ _).
  - reflexivity.
  - discriminate.
Defined.

(** An empty bundle while the file of the sample playlist plays. *)
Lemma EngineMetadataReceived_without_title_and_artist_witness :
  exists song,
    stream_metadata
      (active (EngineMetadataReceived
                 (Engine.mkBundle EmptyString EmptyString "Live")
                 Scenes.file_then_stream))
    = (PlaylistItem.Url Sample.file_item, song)
      :: stream_metadata (active Scenes.file_then_stream)
    /\ title song = title (PlaylistItem.Metadata Sample.file_item)
    /\ artist song = artist (PlaylistItem.Metadata Sample.file_item).
Proof.
  refine (proj2 (EngineMetadataReceived_without_title_and_artist
                   (Engine.mkBundle EmptyString EmptyString "Live")
                   Scenes.file_then_stream Sample.file_item _ _ _) _).
  - reflexivity.
  - reflexivity.
  - reflexivity.
  - left. discriminate.
Defined.

(** ** Where the title is split *)

Lemma string_length_app (a b : string) :
  String.length (a ++ b) = (String.length a + String.length b)%nat.
Proof. induction a as [| c a IH]; [reflexivity | cbn; rewrite IH; reflexivity]. Qed.

Lemma take_app_exact (a b : string) : QStr.take (String.length a) (a ++ b) = a.
Proof. induction a as [| c a IH]; [destruct b; reflexivity | cbn; rewrite IH; reflexivity]. Qed.

Lemma drop_past_separator (c : ascii) (a b : string) :
  QStr.drop (S (String.length a)) (a ++ String c b) = b.
Proof. induction a as [| x a IH]; [reflexivity | exact IH]. Qed.

Lemma indexOf_from_first (c : ascii) (before after : string) :
  forall k, 0 <= k ->
    QStr.indexOf_from before c k = -1 ->
    QStr.indexOf_from (before ++ String c after) c k
    = k + Z.of_nat (String.length before).
Proof.
  induction before as [| a before IH]; intros k Hk Hnone.
  - cbn. rewrite Ascii.eqb_refl. lia.
  - cbn in Hnone |- *. destruct (Ascii.eqb a c); [lia |].
    rewrite (IH (k + 1)) by (lia || assumption). lia.
Qed.

Lemma split_at_first (c : ascii) (before after : string) :
  QStr.indexOf before c = -1 ->
  let s := (before ++ String c after)%string in
  QStr.indexOf s c = Z.of_nat (String.length before)
  /\ QStr.left s (QStr.indexOf s c) = before
  /\ QStr.mid s (QStr.indexOf s c + 1) = after.
Proof.
  intros Hnone s.
  assert (Hpos : QStr.indexOf s c = Z.of_nat (String.length before)).
  { unfold QStr.indexOf, s. rewrite indexOf_from_first; [lia | lia | exact Hnone]. }
  rewrite Hpos. split; [reflexivity | split].
  - unfold QStr.left, s. rewrite string_length_app. cbn [String.length].
    destruct (Z.ltb_spec (Z.of_nat (String.length before)) 0); [lia |].
    destruct (Z.geb_spec (Z.of_nat (String.length before))
                (Z.of_nat (String.length before + S (String.length after))));
      [lia |].
    cbn [orb]. rewrite Nat2Z.id. apply take_app_exact.
  - unfold QStr.mid, s.
    destruct (Z.ltb_spec (Z.of_nat (String.length before) + 1) 0); [lia |].
    replace (Z.to_nat (Z.of_nat (String.length before) + 1))
      with (S (String.length before)) by lia.
    apply drop_past_separator.
Qed.

(** X25.  The title is split at its first '-'.  For a bundle without
    artist whose title is [before], a '-' and [after], with no '-' in
    [before], what is published has [before] and [after], each trimmed, as
    title and artist (as artist and title for a provider that swaps),
    whatever further '-' [after] holds; provided neither is empty once
    trimmed. *)
Theorem EngineMetadataReceived_splits_at_the_first_dash
    (st : Player) (item : PlaylistItem.t) (before after album_ : string)
    (Hcur : current_item (active st) = Some item)
    (Hfirst : QStr.indexOf before "-" = -1)
    (Hbefore : QStr.trimmed before <> EmptyString)
    (Hafter : QStr.trimmed after <> EmptyString) :
  exists song,
    stream_metadata
      (active (EngineMetadataReceived
                 (Engine.mkBundle (before ++ String "-" after) EmptyString
                                  album_) st))
    = (PlaylistItem.Url item, song) :: stream_metadata (active st)
    /\ title song
       = (if swaps_artist_and_title (PlaylistItem.Url item)
          then QStr.trimmed after else QStr.trimmed before)
    /\ artist song
       = (if swaps_artist_and_title (PlaylistItem.Url item)
          then QStr.trimmed before else QStr.trimmed after).
Proof.
  destruct (split_at_first "-" before after Hfirst) as (Hpos & Hleft & Hmid).
  apply isEmpty_false in Hbefore. apply isEmpty_false in Hafter.
  unfold EngineMetadataReceived. rewrite Hcur. cbv zeta.
  cbn [Engine.bundle_title Engine.bundle_artist Engine.bundle_album].
  rewrite Hleft, Hmid.
  assert (Hfound : (QStr.indexOf (before ++ String "-" after) "-" =? -1) = false)
    by (apply Z.eqb_neq; rewrite Hpos; lia).
  rewrite Hfound. cbn [negb andb QStr.isEmpty].
  destruct (swaps_artist_and_title (PlaylistItem.Url item));
    cbn [MergeFromSimpleMetaBundle Engine.bundle_title Engine.bundle_artist
         Engine.bundle_album title artist];
    do 2 (rewrite ?Hbefore, ?Hafter; cbv beta iota delta [andb]);
    eexists;
    (split;
     [ reflexivity
     | cbn [MergeFromSimpleMetaBundle Engine.bundle_title
            Engine.bundle_artist Engine.bundle_album title artist];
       rewrite ?Hbefore, ?Hafter; split; reflexivity ]).
Qed.

(** A title with two dashes, for a plain stream. *)
Lemma EngineMetadataReceived_splits_at_the_first_dash_witness :
  exists song,
    stream_metadata
      (active (EngineMetadataReceived
                 (Engine.mkBundle ("Up " ++ String "-" " Down - Again")
                                  EmptyString EmptyString)
                 Sample.on_stream))
    = (PlaylistItem.Url Sample.stream_item, song)
      :: stream_metadata (active Sample.on_stream)
    /\ title song
       = (if swaps_artist_and_title (PlaylistItem.Url Sample.stream_item)
          then QStr.trimmed " Down - Again" else QStr.trimmed "Up ")
    /\ artist song
       = (if swaps_artist_and_title (PlaylistItem.Url Sample.stream_item)
          then QStr.trimmed "Up " else QStr.trimmed " Down - Again").
Proof.
  refine (EngineMetadataReceived_splits_at_the_first_dash Sample.on_stream
            Sample.stream_item "Up " " Down - Again" EmptyString _ _ _ _).
  - reflexivity.
  - reflexivity.
  - discriminate.
  - discriminate.
Defined.

(** ** The current item follows the cursor *)

Section CurrentItem.

Context {nav : Navigation}.

Lemma NextItem_with_follows play_at change :
  (forall i c r st st', play_at i c r st = Ok st' -> follows_cursor st') ->
  forall st st', NextItem_with play_at change st = Ok st' -> follows_cursor st'.
Proof.
  intros Hp st st' Hrun. unfold NextItem_with in Hrun. cbv zeta in Hrun.
  destruct (next_index (active st) =? -1).
  - injection Hrun as <-. reflexivity.
  - exact (Hp _ _ _ _ _ Hrun).
Qed.

Lemma HandleSpecialLoad_with_follows play_at result :
  (forall i c r st st', play_at i c r st = Ok st' -> follows_cursor st') ->
  forall st st',
    follows_cursor st ->
    HandleSpecialLoad_with play_at result st = Ok st' -> follows_cursor st'.
Proof.
  intros Hp st st' Hinv Hrun.
  destruct result as [| original media | original];
    unfold HandleSpecialLoad_with in Hrun; cbv zeta in Hrun.
  - exact (NextItem_with_follows play_at Engine.Auto Hp _ _ Hrun).
  - destruct (current_index (active st) =? -1) eqn:Hidx;
      [injection Hrun as <-; exact Hinv |].
    destruct (item_at (active st) (current_index (active st)))
      as [item |] eqn:Hitem;
      [| injection Hrun as <-; exact Hinv].
    destruct (negb (QUrl_eqb (PlaylistItem.Url item) original));
      injection Hrun as <-; [exact Hinv |].
    unfold follows_cursor, current_item.
    cbn [active current_item_ set_loading_async_ set_current_item_ on_engine].
    rewrite Hidx, Hitem. reflexivity.
  - injection Hrun as <-. exact Hinv.
Qed.

Lemma PlayAt_with_follows nested index change reshuffle :
  (forall i c r st st', nested i c r st = Ok st' -> follows_cursor st') ->
  forall st st',
    PlayAt_with nested index change reshuffle st = Ok st' ->
    follows_cursor st'.
Proof.
  intros Hn st st' Hrun. unfold PlayAt_with in Hrun. cbv zeta in Hrun.
  set (moved := on_playlist (set_current_index index)
                  (if reshuffle then on_playlist (set_current_index (-1)) st
                   else st)) in *.
  cbn [current_item_ set_current_item_] in Hrun.
  destruct (current_item (active moved)) as [current |] eqn:Hcur;
    [| discriminate].
  assert (Hset : follows_cursor (set_current_item_ (Some current) moved))
    by (unfold follows_cursor; cbn [current_item_ set_current_item_ active];
        symmetry; exact Hcur).
  destruct (PlaylistItem.has current PlaylistItem.SpecialPlayBehaviour).
  - destruct (QUrl_eqb _ _); [injection Hrun as <-; exact Hset |].
    unfold call_StartLoading in Hrun.
    refine (HandleSpecialLoad_with_follows nested _ Hn _ _ _ Hrun).
    exact Hset.
  - cbn [lastfm_ on_engine set_loading_async_ set_current_item_] in Hrun.
    destruct (IsScrobblingEnabled _); injection Hrun as <-; exact Hset.
Qed.

Lemma PlayAt_follows (fuel : nat) :
  forall index change reshuffle st st',
    PlayAt fuel index change reshuffle st = Ok st' -> follows_cursor st'.
Proof.
  induction fuel as [| fuel IH]; intros index change reshuffle;
    cbn [PlayAt]; apply PlayAt_with_follows.
  - intros i c r st st' H. discriminate H.
  - exact IH.
Qed.

Lemma NextInternal_follows (fuel : nat) change (st st' : Player) :
  follows_cursor st -> NextInternal fuel change st = Ok st' ->
  follows_cursor st'.
Proof.
  intros Hinv Hrun. unfold NextInternal in Hrun. cbv zeta in Hrun.
  fold (skipped change st) in Hrun.
  assert (Hsk : follows_cursor (skipped change st))
    by (destruct change; exact Hinv).
  set (sk := skipped change st) in *.
  destruct (stop_after_current (active sk)).
  { injection Hrun as <-. reflexivity. }
  destruct (current_item (active sk)) as [current |].
  - destruct (PlaylistItem.has current PlaylistItem.ContainsMultipleTracks).
    + destruct (QUrl_eqb _ _); [injection Hrun as <-; exact Hsk |].
      unfold call_LoadNext, HandleSpecialLoad in Hrun.
      refine (HandleSpecialLoad_with_follows _ _ (PlayAt_follows fuel)
                _ _ _ Hrun).
      exact Hsk.
    + exact (NextItem_with_follows _ change (PlayAt_follows fuel) _ _ Hrun).
  - exact (NextItem_with_follows _ change (PlayAt_follows fuel) _ _ Hrun).
Qed.

Lemma Previous_follows (fuel : nat) (st st' : Player) :
  Previous fuel st = Ok st' -> follows_cursor st'.
Proof.
  intros Hrun. unfold Previous in Hrun. cbv zeta in Hrun.
  destruct (previous_index (active st) =? -1).
  - injection Hrun as <-. reflexivity.
  - exact (PlayAt_follows fuel _ _ _ _ _ Hrun).
Qed.

Lemma handle_navigation_follows (fuel : nat) (ev : event) (st st' : Player) :
  navigates ev = true -> follows_cursor st ->
  handle fuel ev st = Ok st' -> follows_cursor st'.
Proof.
  intros Hnav Hinv Hrun.
  destruct ev; try discriminate Hnav; cbn [handle] in Hrun.
  - exact (PlayAt_follows fuel _ _ _ _ _ Hrun).
  - exact (NextInternal_follows fuel Engine.Manual _ _ Hinv Hrun).
  - exact (Previous_follows fuel _ _ Hrun).
  - injection Hrun as <-. reflexivity.
  - unfold TrackAboutToEnd in Hrun. cbv zeta in Hrun.
    destruct (Engine.is_autocrossfade_enabled (engine_ st));
      [exact (NextInternal_follows fuel Engine.Auto _ _ Hinv Hrun) |].
    destruct (current_item_ st) as [current |] eqn:Hcur; [| discriminate].
    destruct (PlaylistItem.has current PlaylistItem.ContainsMultipleTracks);
      [injection Hrun as <-; exact Hinv |].
    destruct (next_index (active st) =? -1);
      [injection Hrun as <-; exact Hinv |].
    destruct (item_at (active st) (next_index (active st))) as [item |];
      [| injection Hrun as <-; exact Hinv].
    destruct (PlaylistItem.has item PlaylistItem.ContainsMultipleTracks);
      [| injection Hrun as <-; exact Hinv].
    unfold call_LoadNext in Hrun.
    destruct (PlaylistItem.LoadNext item _); injection Hrun as <-; exact Hinv.
  - unfold TrackEnded in Hrun. cbv zeta in Hrun.
    destruct (stop_after_current (active st)).
    + injection Hrun as <-. reflexivity.
    + exact (NextInternal_follows fuel Engine.Auto _ _ Hinv Hrun).
  - exact (HandleSpecialLoad_with_follows _ _ (PlayAt_follows fuel)
             _ _ Hinv Hrun).
Qed.

(** X26.  The current item the player holds is the item under the cursor
    of the active playlist, or none when the cursor is at -1: [PlayAt],
    [Previous] and [Stop] leave it so whenever they return, and once it
    is so it stays so through any sequence of [PlayAt], [Next],
    [Previous], [Stop], [TrackAboutToEnd], [TrackEnded] and special-load
    results. *)
Theorem current_item_follows_the_cursor (fuel : nat) (st st' : Player) :
  (forall index change reshuffle,
      PlayAt fuel index change reshuffle st = Ok st' -> follows_cursor st')
  /\ (Previous fuel st = Ok st' -> follows_cursor st')
  /\ follows_cursor (Stop st)
  /\ (forall evs,
        forallb navigates evs = true ->
        follows_cursor st ->
        handle_all fuel evs st = Ok st' ->
        follows_cursor st').
Proof.
  split; [| split; [| split]].
  - intros index change reshuffle. apply PlayAt_follows.
  - apply Previous_follows.
  - reflexivity.
  - intros evs. revert st.
    induction evs as [| ev evs IH]; intros st Hnav Hinv Hrun;
      cbn [handle_all] in Hrun.
    + injection Hrun as <-. exact Hinv.
    + cbn [forallb] in Hnav. apply andb_true_iff in Hnav as [Hev Hevs].
      destruct (handle fuel ev st) as [mid | |] eqn:Hmid; try discriminate.
      exact (IH mid Hevs (handle_navigation_follows fuel ev st mid Hev Hinv Hmid)
               Hrun).
Qed.

End CurrentItem.

(** A run through the sample playlist, the radio's track arriving late. *)
Lemma current_item_follows_the_cursor_witness :
  exists st',
    handle_all (nav := Sample.linear) 0
      [EvPlayAt 1 Engine.Manual false; EvPrevious;
       EvSpecialLoad (PlaylistItem.TrackAvailable Sample.url_radio
                        Sample.url_resolved);
       EvTrackAboutToEnd; EvNext]
      Sample.idle = Ok st'
    /\ follows_cursor st'.
Proof.
  eexists. split; [vm_compute; reflexivity |].
  refine (proj2 (proj2 (proj2 (current_item_follows_the_cursor
                                 (nav := Sample.linear) 0 Sample.idle _)))
            [EvPlayAt 1 Engine.Manual false; EvPrevious;
             EvSpecialLoad (PlaylistItem.TrackAvailable Sample.url_radio
                              Sample.url_resolved);
             EvTrackAboutToEnd; EvNext] _ _ _).
  - reflexivity.
  - reflexivity.
  - vm_compute. reflexivity.
Defined.
